(** * Catalog reconciliation of service brokers (korifi)

    A shallow embedding of
    [controllers/controllers/services/brokers/controller.go]: the
    reconciler that copies the catalog of a service broker into
    CFServiceOffering and CFServicePlan objects, and the map function that
    turns a secret event into reconcile requests.

    Go values are modelled as follows: a Go [string] and a [[]byte] are a
    Rocq [string]; [error] is [option error] ([None] is [nil]); a call that
    may panic yields an [outcome]; the cluster the client talks to, the
    requests issued and the failures the API server injects are the
    [World] that every effectful function threads. *)

From stdpp Require Import gmap strings list fin_maps pretty.
From Stdlib Require Import ZArith.

Set Warnings "-register-all".
#[local] Open Scope string_scope.
#[local] Open Scope Z_scope.

(** ** Go runtime: strings, errors, panics *)

Definition bytes := string.

(** The double quote character, which [%q] puts around its operand. *)
Definition dquote : string := String (Ascii.ascii_of_nat 34) EmptyString.

Module apierrors.
(** [metav1.StatusReason], the classification carried by an API error. *)
Inductive StatusReason :=
| StatusReasonUnknown
| StatusReasonNotFound
| StatusReasonAlreadyExists
| StatusReasonConflict
| StatusReasonForbidden
| StatusReasonTimeout
| StatusReasonInternalError.

#[global] Instance StatusReason_eq_dec : EqDecision StatusReason.
Proof. solve_decision. Defined.
End apierrors.
Import apierrors.

(** A Go [error] value that is not [nil]: an API status error, a plain
    error ([errors.New], [fmt.Errorf] without [%w], decoding errors), or an
    error that wraps its cause ([fmt.Errorf] with [%w]). *)
Inductive error :=
| StatusError (reason : StatusReason) (message : string)
| ErrorString (message : string)
| WrapError (message : string) (cause : error).

#[global] Instance error_eq_dec : EqDecision error.
Proof. solve_decision. Defined.

(** [err.Error()] *)
Definition Error (e : error) : string :=
  match e with
  | StatusError _ m => m
  | ErrorString m => m
  | WrapError m _ => m
  end.

(** [fmt.Errorf(prefix + "%w", err)]: the text of the cause is formatted into
    the message and the cause stays reachable by [errors.As]. *)
Definition Errorf_w (prefix : string) (err : error) : error :=
  WrapError (prefix ++ Error err) err.

(** [fmt.Errorf(prefix + "%v", err)]: only the text of the cause is kept. *)
Definition Errorf_v (prefix : string) (err : error) : error :=
  ErrorString (prefix ++ Error err).

(** [apierrors.ReasonForError]: the reason of the first API status error on
    the chain of wrapped errors. *)
Fixpoint ReasonForError (e : error) : StatusReason :=
  match e with
  | StatusError r _ => r
  | ErrorString _ => StatusReasonUnknown
  | WrapError _ c => ReasonForError c
  end.

(** [apierrors.IsNotFound] *)
Definition IsNotFound (e : error) : bool :=
  bool_decide (ReasonForError e = StatusReasonNotFound).

(** What a call does when it comes back: it returns, or it panics. *)
Inductive outcome (A : Type) :=
| Returns (a : A)
| Panics (v : string).
Arguments Returns {A} a.
Arguments Panics {A} v.

(** ** Decoded JSON: the dynamic values behind [any] *)

Inductive any : Type :=
| AnyNil
| AnyBool (b : bool)
| AnyFloat64 (bits : Z)
| AnyString (s : string)
| AnySlice (l : list any)
| AnyMap (m : gmap string any).

(** The name [encoding/json] gives the JSON value in an
    [UnmarshalTypeError]. *)
Definition json_value_name (v : any) : string :=
  match v with
  | AnyNil => "null"
  | AnyBool _ => "bool"
  | AnyFloat64 _ => "number"
  | AnyString _ => "string"
  | AnySlice _ => "array"
  | AnyMap _ => "object"
  end.

(** ** What the reconciler takes from outside this file

    [tools.NamespacedUUID], the constants of [korifiv1alpha1] and the
    initial reason of the ready-condition builder belong to other packages
    of the repository ([tools], [controllers/api/v1alpha1], [tools/k8s]);
    [%q] quoting and the JSON codec belong to the Go standard library. They
    are parameters of the development: every theorem holds for all of
    them. *)
Class Deps := {
  (** [tools.NamespacedUUID(namespace, name)] *)
  NamespacedUUID : string -> string -> string;
  (** [korifiv1alpha1.CredentialsSecretKey] *)
  CredentialsSecretKey : string;
  (** [korifiv1alpha1.UsernameCredentialsKey] *)
  UsernameCredentialsKey : string;
  (** [korifiv1alpha1.PasswordCredentialsKey] *)
  PasswordCredentialsKey : string;
  (** [korifiv1alpha1.RelServiceBrokerLabel] *)
  RelServiceBrokerLabel : string;
  (** [korifiv1alpha1.RelServiceOfferingLabel] *)
  RelServiceOfferingLabel : string;
  (** the reason a fresh ready-condition builder starts with *)
  InitialReason : string;
  (** [strconv.Quote], what [%q] prints for a string *)
  Quote : string -> string;
  (** the decoder of [encoding/json]: the value a document denotes, or the
      syntax error *)
  json_decode : bytes -> any + error;
  (** [json.Marshal] of a [map[string]any] (which may be the nil map) *)
  json_Marshal : option (gmap string any) -> bytes + error
}.

(** [json.Unmarshal(data, &m)] for [m] of type [map[string]any]: a JSON
    object fills the map (keeping the entries it has), [null] leaves it as
    it is, any other value is a type error. *)
Definition json_Unmarshal `{Deps} (data : bytes) (m : gmap string any)
  : gmap string any * option error :=
  match json_decode data with
  | inr e => (m, Some e)
  | inl AnyNil => (m, None)
  | inl (AnyMap o) => (o ∪ m, None)
  | inl v =>
      (m, Some (ErrorString ("json: cannot unmarshal " ++ json_value_name v
                 ++ " into Go value of type map[string]interface {}")))
  end.

(** ** Status conditions ([k8s.io/apimachinery], [api/meta]) *)

Inductive ConditionStatus := ConditionTrue | ConditionFalse | ConditionUnknown.

#[global] Instance ConditionStatus_eq_dec : EqDecision ConditionStatus.
Proof. solve_decision. Defined.

Module Condition.
Record t := {
  Type_ : string;
  Status : ConditionStatus;
  ObservedGeneration : Z;
  LastTransitionTime : Z;
  Reason : string;
  Message : string
}.
#[global] Instance eq_dec : EqDecision t.
Proof. solve_decision. Defined.
End Condition.

(** [korifiv1alpha1.StatusConditionReady] *)
Definition StatusConditionReady : string := "Ready".

(** [meta.FindStatusCondition]: the first condition of the given type. *)
Fixpoint FindStatusCondition (conditions : list Condition.t) (conditionType : string)
  : option Condition.t :=
  match conditions with
  | [] => None
  | c :: rest =>
      if decide (Condition.Type_ c = conditionType) then Some c
      else FindStatusCondition rest conditionType
  end.

(** The update [meta.SetStatusCondition] makes to an existing condition:
    the transition time moves only when the status changes. *)
Definition updateCondition (now : Z) (existing new : Condition.t) : Condition.t :=
  {| Condition.Type_ := Condition.Type_ existing;
     Condition.Status := Condition.Status new;
     Condition.ObservedGeneration := Condition.ObservedGeneration new;
     Condition.LastTransitionTime :=
       if decide (Condition.Status existing = Condition.Status new)
       then Condition.LastTransitionTime existing
       else if decide (Condition.LastTransitionTime new = 0) then now
            else Condition.LastTransitionTime new;
     Condition.Reason := Condition.Reason new;
     Condition.Message := Condition.Message new |}.

(** [meta.SetStatusCondition]: update the first condition of the same type
    in place, or append the new one. *)
Fixpoint SetStatusCondition (now : Z) (conditions : list Condition.t)
    (newCondition : Condition.t) : list Condition.t :=
  match conditions with
  | [] =>
      [ if decide (Condition.LastTransitionTime newCondition = 0)
        then {| Condition.Type_ := Condition.Type_ newCondition;
                Condition.Status := Condition.Status newCondition;
                Condition.ObservedGeneration := Condition.ObservedGeneration newCondition;
                Condition.LastTransitionTime := now;
                Condition.Reason := Condition.Reason newCondition;
                Condition.Message := Condition.Message newCondition |}
        else newCondition ]
  | c :: rest =>
      if decide (Condition.Type_ c = Condition.Type_ newCondition)
      then updateCondition now c newCondition :: rest
      else c :: SetStatusCondition now rest newCondition
  end.

(** ** The objects of the cluster *)

(** [types.NamespacedName], written (namespace, name). *)
Abbreviation NamespacedName := (string * string)%type.

Module Secret.
Record t := {
  Name : string;
  Namespace : string;
  ResourceVersion : string;
  Data : gmap string bytes
}.
End Secret.

Module CFServiceBroker.
Record CFServiceBrokerStatus := {
  Conditions : list Condition.t;
  ObservedGeneration : Z;
  CredentialsObservedVersion : string
}.
Record t := {
  Name : string;
  Namespace : string;
  Generation : Z;
  (** [Spec.Credentials.Name] *)
  Credentials : string;
  Status : CFServiceBrokerStatus
}.
End CFServiceBroker.

(** [runtime.RawExtension]: a JSON document kept as its bytes. *)
Record RawExtension := { Raw : bytes }.

#[global] Instance RawExtension_eq_dec : EqDecision RawExtension.
Proof. solve_decision. Defined.

(** Modelled from the spec: [services.BrokerCatalogFeatures] is declared in
    the package [model/services]; the catalog document of the spec gives a
    service the two flags [bindable] and [plan_updateable]. *)
Record BrokerCatalogFeatures := {
  bcf_PlanUpdateable : bool;
  bcf_Bindable : bool
}.

#[global] Instance BrokerCatalogFeatures_eq_dec : EqDecision BrokerCatalogFeatures.
Proof. solve_decision. Defined.

(** [services.ServiceBrokerCatalog] *)
Record ServiceBrokerCatalog := {
  sbc_Id : string;
  sbc_Metadata : option RawExtension;
  sbc_Features : BrokerCatalogFeatures
}.

#[global] Instance ServiceBrokerCatalog_eq_dec : EqDecision ServiceBrokerCatalog.
Proof. solve_decision. Defined.

(** [services.ServiceOffering], with the fields [toSpecServiceOffering]
    fills. *)
Module ServiceOffering.
Record t := {
  Name : string;
  Description : string;
  Tags : list string;
  Requires : list string;
  DocumentationURL : option string;
  BrokerCatalog : ServiceBrokerCatalog
}.
#[global] Instance eq_dec : EqDecision t.
Proof. solve_decision. Defined.

(** The zero value [services.ServiceOffering{}]. *)
Definition zero : t :=
  {| Name := EmptyString; Description := EmptyString; Tags := []; Requires := [];
     DocumentationURL := None;
     BrokerCatalog := {| sbc_Id := EmptyString; sbc_Metadata := None;
                         sbc_Features := {| bcf_PlanUpdateable := false;
                                            bcf_Bindable := false |} |} |}.
End ServiceOffering.

(** [services.ServicePlanFeatures] *)
Record ServicePlanFeatures := {
  PlanUpdateable : bool;
  Bindable : bool
}.

#[global] Instance ServicePlanFeatures_eq_dec : EqDecision ServicePlanFeatures.
Proof. solve_decision. Defined.

(** [services.ServicePlanBrokerCatalog] *)
Record ServicePlanBrokerCatalog := {
  ID : string;
  Metadata : option RawExtension;
  Features : ServicePlanFeatures
}.

#[global] Instance ServicePlanBrokerCatalog_eq_dec : EqDecision ServicePlanBrokerCatalog.
Proof. solve_decision. Defined.

(** [services.InputParameterSchema] *)
Record InputParameterSchema := { Parameters : option RawExtension }.

#[global] Instance InputParameterSchema_eq_dec : EqDecision InputParameterSchema.
Proof. solve_decision. Defined.

(** [services.ServiceInstanceSchema] *)
Record ServiceInstanceSchema := {
  si_Create : InputParameterSchema;
  si_Update : InputParameterSchema
}.

#[global] Instance ServiceInstanceSchema_eq_dec : EqDecision ServiceInstanceSchema.
Proof. solve_decision. Defined.

(** [services.ServiceBindingSchema] *)
Record ServiceBindingSchema := { sb_Create : InputParameterSchema }.

#[global] Instance ServiceBindingSchema_eq_dec : EqDecision ServiceBindingSchema.
Proof. solve_decision. Defined.

(** [services.ServicePlanSchemas] *)
Record ServicePlanSchemas := {
  ServiceInstance : ServiceInstanceSchema;
  ServiceBinding : ServiceBindingSchema
}.

#[global] Instance ServicePlanSchemas_eq_dec : EqDecision ServicePlanSchemas.
Proof. solve_decision. Defined.

(** [services.BrokerServicePlan], the one member of [services.ServicePlan]
    that the reconciler writes. *)
Module BrokerServicePlan.
Record t := {
  Name : string;
  Free : bool;
  Description : string;
  BrokerCatalog : ServicePlanBrokerCatalog;
  Schemas : ServicePlanSchemas
}.
#[global] Instance eq_dec : EqDecision t.
Proof. solve_decision. Defined.

Definition zero : t :=
  {| Name := EmptyString; Free := false; Description := EmptyString;
     BrokerCatalog := {| ID := EmptyString; Metadata := None;
                         Features := {| PlanUpdateable := false; Bindable := false |} |};
     Schemas :=
       {| ServiceInstance := {| si_Create := {| Parameters := None |};
                                si_Update := {| Parameters := None |} |};
          ServiceBinding := {| sb_Create := {| Parameters := None |} |} |} |}.
End BrokerServicePlan.

(** [korifiv1alpha1.CFServiceOffering]; [Spec] is the [ServiceOffering]
    embedded in [CFServiceOfferingSpec]. [Labels] is [None] for the nil
    map. *)
Module CFServiceOffering.
Record t := {
  Name : string;
  Namespace : string;
  Labels : option (gmap string string);
  Spec : ServiceOffering.t
}.
#[global] Instance eq_dec : EqDecision t.
Proof. solve_decision. Defined.
End CFServiceOffering.

(** [korifiv1alpha1.CFServicePlan]; [Spec] is the [BrokerServicePlan] of the
    [ServicePlan] that [CFServicePlanSpec] holds. *)
Module CFServicePlan.
Record t := {
  Name : string;
  Namespace : string;
  Labels : option (gmap string string);
  Spec : BrokerServicePlan.t
}.
#[global] Instance eq_dec : EqDecision t.
Proof. solve_decision. Defined.
End CFServicePlan.

(** Reading a Go [map[string]string] that may be nil: a missing key reads as
    the empty string. *)
Definition label (labels : option (gmap string string)) (k : string) : string :=
  default EmptyString (labels ≫= (.!! k)).

(** ** The catalog document ([osbapi])

    Modelled from the spec: the types [osbapi.Catalog], [osbapi.Service] and
    [osbapi.Plan] are declared in the package [brokers/osbapi]; their fields
    are those of the catalog document of the spec, [{services: [{id, name,
    description, tags[], requires[], bindable, plan_updateable, metadata,
    plans: [{id, name, description, free, bindable, plan_updateable,
    metadata, schemas}]}]}], under the names the reconciler reads them by. *)
Module Plan.
Record t := {
  ID : string;
  Name : string;
  Description : string;
  Free : bool;
  Bindable : bool;
  PlanUpdateable : bool;
  Metadata : option (gmap string any);
  Schemas : ServicePlanSchemas
}.
End Plan.

Module Service.
Record t := {
  ID : string;
  Name : string;
  Description : string;
  Tags : list string;
  Requires : list string;
  BrokerCatalogFeatures : BrokerCatalogFeatures;
  Metadata : option (gmap string any);
  Plans : list Plan.t
}.
End Service.

Record Catalog := { Services : list Service.t }.

(** ** The cluster, as the client sees it *)

Inductive Kind := KSecret | KCFServiceBroker | KCFServiceOffering | KCFServicePlan.

#[global] Instance Kind_eq_dec : EqDecision Kind.
Proof. solve_decision. Defined.

(** The objects the reconciler writes. *)
Inductive Object :=
| OfferingObject (o : CFServiceOffering.t)
| PlanObject (p : CFServicePlan.t).

#[global] Instance Object_eq_dec : EqDecision Object.
Proof. solve_decision. Defined.

(** What an invocation does that can be seen from outside: the requests it
    sends to the API server, the call to the catalog client and the write of
    a status condition on the broker it was handed. *)
Inductive Event :=
| EvGet (k : Kind) (key : NamespacedName)
| EvList (k : Kind) (namespace field value : string)
| EvCreate (o : Object)
| EvPatch (o : Object)
| EvGetCatalog (broker : string)
| EvSetStatusCondition (c : Condition.t).

#[global] Instance Event_eq_dec : EqDecision Event.
Proof. solve_decision. Defined.

(** The state every effectful function threads: the stored objects by kind,
    the failures the API server will answer the coming requests with (the
    head is for the next request; [None] and the empty list let it
    through), the clock, and the events so far, oldest first. *)
Record World := {
  secrets : gmap NamespacedName Secret.t;
  brokers : gmap NamespacedName CFServiceBroker.t;
  offerings : gmap NamespacedName CFServiceOffering.t;
  plans : gmap NamespacedName CFServicePlan.t;
  faults : list (option error);
  clock : Z;
  trace : list Event
}.

Definition Go (A : Type) : Type := World -> A * World.

Definition emit (ev : Event) (w : World) : World :=
  {| secrets := secrets w; brokers := brokers w; offerings := offerings w;
     plans := plans w; faults := faults w; clock := clock w;
     trace := trace w ++ [ev] |}.

(** One request to the API server: it is recorded, and it fails when the
    server has a failure in store for it. *)
Definition request (ev : Event) : Go (option error) := fun w =>
  match faults w with
  | [] => (None, emit ev w)
  | fault :: rest =>
      (fault,
       emit ev {| secrets := secrets w; brokers := brokers w; offerings := offerings w;
                  plans := plans w; faults := rest; clock := clock w;
                  trace := trace w |})
  end.

(** The name of a kind's resource in the messages of the API server. *)
Definition resource (k : Kind) : string :=
  match k with
  | KSecret => "secrets"
  | KCFServiceBroker => "cfservicebrokers.korifi.cloudfoundry.org"
  | KCFServiceOffering => "cfserviceofferings.korifi.cloudfoundry.org"
  | KCFServicePlan => "cfserviceplans.korifi.cloudfoundry.org"
  end.

(** [apierrors.NewNotFound] and [apierrors.NewAlreadyExists] *)
Definition NewNotFound (k : Kind) (name : string) : error :=
  StatusError StatusReasonNotFound
    (resource k ++ " " ++ dquote ++ name ++ dquote ++ " not found").

Definition NewAlreadyExists (k : Kind) (name : string) : error :=
  StatusError StatusReasonAlreadyExists
    (resource k ++ " " ++ dquote ++ name ++ dquote ++ " already exists").

(** [client.Object], for the kinds the reconciler creates or patches: where
    the objects of the kind are stored, and how an object is named. *)
Class ClientObject (T : Type) := {
  object_eq_dec :: EqDecision T;
  kind : Kind;
  ObjectKeyFromObject : T -> NamespacedName;
  toObject : T -> Object;
  stored : World -> gmap NamespacedName T;
  store : gmap NamespacedName T -> World -> World
}.

#[global] Instance CFServiceOffering_object : ClientObject CFServiceOffering.t := {
  kind := KCFServiceOffering;
  ObjectKeyFromObject o := (CFServiceOffering.Namespace o, CFServiceOffering.Name o);
  toObject := OfferingObject;
  stored := offerings;
  store m w :=
    {| secrets := secrets w; brokers := brokers w; offerings := m;
       plans := plans w; faults := faults w; clock := clock w; trace := trace w |}
}.

#[global] Instance CFServicePlan_object : ClientObject CFServicePlan.t := {
  kind := KCFServicePlan;
  ObjectKeyFromObject p := (CFServicePlan.Namespace p, CFServicePlan.Name p);
  toObject := PlanObject;
  stored := plans;
  store m w :=
    {| secrets := secrets w; brokers := brokers w; offerings := offerings w;
       plans := m; faults := faults w; clock := clock w; trace := trace w |}
}.

Section Client.
Context {T : Type} `{ClientObject T}.

(** [client.Get]: the stored object, or the failure of the request, or
    not-found. *)
Definition Get (key : NamespacedName) : Go (T + error) := fun w =>
  let '(fault, w1) := request (EvGet kind key) w in
  match fault with
  | Some err => (inr err, w1)
  | None =>
      match stored w1 !! key with
      | Some o => (inl o, w1)
      | None => (inr (NewNotFound kind key.2), w1)
      end
  end.

(** [client.Create] *)
Definition Create (obj : T) : Go (option error) := fun w =>
  let '(fault, w1) := request (EvCreate (toObject obj)) w in
  match fault with
  | Some err => (Some err, w1)
  | None =>
      let key := ObjectKeyFromObject obj in
      match stored w1 !! key with
      | Some _ => (Some (NewAlreadyExists kind key.2), w1)
      | None => (None, store (<[key := obj]> (stored w1)) w1)
      end
  end.

(** [client.Patch] with the merge patch from the object as it was read to
    the object as the mutation left it: with no writer in between, the
    stored object becomes the mutated one. *)
Definition Patch (obj : T) : Go (option error) := fun w =>
  let '(fault, w1) := request (EvPatch (toObject obj)) w in
  match fault with
  | Some err => (Some err, w1)
  | None =>
      let key := ObjectKeyFromObject obj in
      match stored w1 !! key with
      | None => (Some (NewNotFound kind key.2), w1)
      | Some _ => (None, store (<[key := obj]> (stored w1)) w1)
      end
  end.

(** ** [controllerutil.CreateOrPatch] *)

Inductive OperationResult :=
| OperationResultNone
| OperationResultCreated
| OperationResultUpdated.

(** A [MutateFn] closes over the object it changes in place: here it maps
    the object to the changed object and the error it returns, unless it
    panics. *)
Definition MutateFn : Type := T -> outcome (T * option error).

(** [controllerutil.mutate]: run the function and refuse a change of the
    object's key. *)
Definition mutate (f : MutateFn) (key : NamespacedName) (obj : T)
  : outcome (T * option error) :=
  match f obj with
  | Panics v => Panics v
  | Returns (obj1, Some err) => Returns (obj1, Some err)
  | Returns (obj1, None) =>
      if decide (ObjectKeyFromObject obj1 = key) then Returns (obj1, None)
      else Returns (obj1, Some (ErrorString
             "MutateFn cannot mutate object name and/or object namespace"))
  end.

(** Read the object; when it is not found, mutate the given object and
    create it; otherwise mutate what was read and patch it if the mutation
    changed anything. The object comes back as the caller's pointer sees
    it afterwards. *)
Definition CreateOrPatch (obj : T) (f : MutateFn)
  : Go (outcome (T * OperationResult * option error)) := fun w =>
  let key := ObjectKeyFromObject obj in
  let '(got, w1) := Get key w in
  match got with
  | inr err =>
      if IsNotFound err then
        match mutate f key obj with
        | Panics v => (Panics v, w1)
        | Returns (obj1, Some merr) =>
            (Returns (obj1, OperationResultNone, Some merr), w1)
        | Returns (obj1, None) =>
            let '(cerr, w2) := Create obj1 w1 in
            match cerr with
            | Some e => (Returns (obj1, OperationResultNone, Some e), w2)
            | None => (Returns (obj1, OperationResultCreated, None), w2)
            end
        end
      else (Returns (obj, OperationResultNone, Some err), w1)
  | inl existing =>
      match mutate f key existing with
      | Panics v => (Panics v, w1)
      | Returns (obj1, Some merr) =>
          (Returns (obj1, OperationResultNone, Some merr), w1)
      | Returns (obj1, None) =>
          if decide (existing = obj1)
          then (Returns (obj1, OperationResultNone, None), w1)
          else
            let '(perr, w2) := Patch obj1 w1 in
            match perr with
            | Some e => (Returns (obj1, OperationResultNone, Some e), w2)
            | None => (Returns (obj1, OperationResultUpdated, None), w2)
            end
      end
  end.
End Client.

(** [client.Get] of a secret. *)
Definition GetSecret (key : NamespacedName) : Go (Secret.t + error) := fun w =>
  let '(fault, w1) := request (EvGet KSecret key) w in
  match fault with
  | Some err => (inr err, w1)
  | None =>
      match secrets w1 !! key with
      | Some s => (inl s, w1)
      | None => (inr (NewNotFound KSecret key.2), w1)
      end
  end.

(** [shared.IndexServiceBrokerCredentialsSecretName], the name of the field
    index. *)
Definition IndexServiceBrokerCredentialsSecretName : string :=
  "serviceBrokerCredentialsSecretNameIndex".

(** Modelled from the spec: the index function registered under
    [shared.IndexServiceBrokerCredentialsSecretName] is declared in the
    package [controllers/shared]; by the spec it is the reverse mapping from
    a secret to the brokers whose credentials reference it, so a broker is
    indexed by the name of its credentials secret. *)
Definition serviceBrokerCredentialsSecretNameIndex (b : CFServiceBroker.t) : list string :=
  [CFServiceBroker.Credentials b].

(** [client.List] of the brokers with [client.InNamespace] and
    [client.MatchingFields] on the credentials-secret index. *)
Definition ListBrokers (namespace value : string) : Go (list CFServiceBroker.t + error) :=
  fun w =>
  let '(fault, w1) :=
    request (EvList KCFServiceBroker namespace
                    IndexServiceBrokerCredentialsSecretName value) w in
  match fault with
  | Some err => (inr err, w1)
  | None =>
      (inl (filter (fun b => CFServiceBroker.Namespace b = namespace
                             ∧ value ∈ serviceBrokerCredentialsSecretNameIndex b)
                   (map snd (map_to_list (brokers w1)))), w1)
  end.

(** ** The ready-condition builder ([tools/k8s])

    Modelled from the spec: [k8s.NewReadyConditionBuilder] and its methods
    are declared in the package [tools/k8s]. By the spec the builder yields
    the broker's one terminal condition, of type Ready, binary ready or
    not-ready with a reason code and a message, and records the generation
    of the object it was made for. The reconciler drives it in three steps
    that the controller shows: [WithReason] names the failure class,
    [Ready] marks the success, and [WithError(err).Build()] makes the
    condition. Here a fresh builder is not ready, [Ready] alone makes it
    ready, and [WithError] attaches the text of an error and leaves a
    builder alone on [nil]: that the condition is True exactly when the
    error is [nil] is then a property of the reconciler to be proved, not
    one the builder grants. *)
Module ReadyConditionBuilder.
Record t := {
  status : ConditionStatus;
  observedGeneration : Z;
  reason : string;
  message : string
}.

Definition WithReason (r : string) (b : t) : t :=
  {| status := status b; observedGeneration := observedGeneration b;
     reason := r; message := message b |}.

Definition WithMessage (m : string) (b : t) : t :=
  {| status := status b; observedGeneration := observedGeneration b;
     reason := reason b; message := m |}.

Definition WithError (err : option error) (b : t) : t :=
  match err with
  | None => b
  | Some e => WithMessage (Error e) b
  end.

Definition Ready (b : t) : t :=
  {| status := ConditionTrue; observedGeneration := observedGeneration b;
     reason := "Ready"; message := "Ready" |}.

Definition Build (now : Z) (b : t) : Condition.t :=
  {| Condition.Type_ := StatusConditionReady;
     Condition.Status := status b;
     Condition.ObservedGeneration := observedGeneration b;
     Condition.LastTransitionTime := now;
     Condition.Reason := reason b;
     Condition.Message := message b |}.
End ReadyConditionBuilder.

Definition NewReadyConditionBuilder `{Deps} (obj : CFServiceBroker.t)
  : ReadyConditionBuilder.t :=
  {| ReadyConditionBuilder.status := ConditionFalse;
     ReadyConditionBuilder.observedGeneration := CFServiceBroker.Generation obj;
     ReadyConditionBuilder.reason := InitialReason;
     ReadyConditionBuilder.message := EmptyString |}.

(** ** The controller *)

(** [ctrl.Result]; a [time.Duration] counts nanoseconds. *)
Record Result := { Requeue : bool; RequeueAfter : Z }.

#[global] Instance Result_eq_dec : EqDecision Result.
Proof. solve_decision. Defined.

Definition Result_zero : Result := {| Requeue := false; RequeueAfter := 0 |}.
Definition Second : Z := 1000000000.

(** [reconcile.Request] *)
Record Request := { NamespacedName_ : NamespacedName }.

#[global] Instance Request_eq_dec : EqDecision Request.
Proof. solve_decision. Defined.

(** The interface [CatalogClient]: one method, which answers with a catalog
    pointer and an error. *)
Record CatalogClient := {
  GetCatalog : CFServiceBroker.t -> option Catalog * option error
}.

(** [Reconciler]: the cluster client is the [World]; the scheme and the
    logger play no part. *)
Record Reconciler := { catalogClient : CatalogClient }.

Section Controller.
Context `{Deps}.

(** [secretToServiceBroker]: the brokers of the secret's namespace that
    the index lists under the secret's name, or nothing when the listing
    fails. *)
Definition secretToServiceBroker (o : Secret.t) : Go (list Request) := fun w =>
  let '(listed, w1) := ListBrokers (Secret.Namespace o) (Secret.Name o) w in
  match listed with
  | inr _ => ([], w1)
  | inl items =>
      (map (fun sb => {| NamespacedName_ :=
                           (CFServiceBroker.Namespace sb, CFServiceBroker.Name sb) |})
           items, w1)
  end.

(** The loop of [validateCredentials] over the required keys. *)
Fixpoint requireKeys (name : string) (creds : gmap string any) (keys : list string)
  : option error :=
  match keys with
  | [] => None
  | k :: rest =>
      match creds !! k with
      | None => Some (ErrorString ("broker credentials secret " ++ Quote name
                                   ++ " does not specify " ++ Quote k))
      | Some _ => requireKeys name creds rest
      end
  end.

Definition validateCredentials (credentialsSecret : Secret.t) : option error :=
  let '(creds, err) :=
    json_Unmarshal
      (default EmptyString (Secret.Data credentialsSecret !! CredentialsSecretKey)) ∅ in
  match err with
  | Some e =>
      Some (Errorf_w ("invalid credentials secret "
                      ++ Quote (Secret.Name credentialsSecret) ++ ": ") e)
  | None =>
      requireKeys (Secret.Name credentialsSecret) creds
                  [UsernameCredentialsKey; PasswordCredentialsKey]
  end.

(** The dynamic type Go names in the panic of a failed type assertion. *)
Definition dynamic_type_name (v : any) : string :=
  match v with
  | AnyNil => "nil"
  | AnyBool _ => "bool"
  | AnyFloat64 _ => "float64"
  | AnyString _ => "string"
  | AnySlice _ => "[]interface {}"
  | AnyMap _ => "map[string]interface {}"
  end.

(** [u.(string)] *)
Definition assert_string (u : any) : outcome string :=
  match u with
  | AnyString s => Returns s
  | v => Panics ("interface conversion: interface {} is "
                 ++ dynamic_type_name v ++ ", not string")
  end.

Definition toSpecServiceOffering (catalogService : Service.t)
  : outcome (ServiceOffering.t * option error) :=
  let offering (doc : option string) (md : option RawExtension) :=
    {| ServiceOffering.Name := Service.Name catalogService;
       ServiceOffering.Description := Service.Description catalogService;
       ServiceOffering.Tags := Service.Tags catalogService;
       ServiceOffering.Requires := Service.Requires catalogService;
       ServiceOffering.DocumentationURL := doc;
       ServiceOffering.BrokerCatalog :=
         {| sbc_Id := Service.ID catalogService;
            sbc_Metadata := md;
            sbc_Features := Service.BrokerCatalogFeatures catalogService |} |} in
  match Service.Metadata catalogService with
  | None => Returns (offering None None, None)
  | Some metadata =>
      let marshal (doc : option string) :=
        match json_Marshal (Some metadata) with
        | inr err => Returns (ServiceOffering.zero, Some err)
        | inl rawMd => Returns (offering doc (Some {| Raw := rawMd |}), None)
        end in
      match metadata !! "documentationUrl" with
      | Some u =>
          match assert_string u with
          | Panics v => Panics v
          | Returns s => marshal (Some s)
          end
      | None => marshal None
      end
  end.

(** [labels[k] = v] on a map that is made when it is nil. *)
Definition setLabel (k v : string) (labels : option (gmap string string))
  : option (gmap string string) :=
  Some (<[k := v]> (default ∅ labels)).

(** The object literal [reconcileCatalogPlan] starts from: the name is
    derived from the broker label of the offering and the ID of the
    catalog plan. *)
Definition servicePlanObject (serviceOffering : CFServiceOffering.t)
    (catalogPlan : Plan.t) : CFServicePlan.t :=
  {| CFServicePlan.Name :=
       NamespacedUUID
         (label (CFServiceOffering.Labels serviceOffering) RelServiceBrokerLabel)
         (Plan.ID catalogPlan);
     CFServicePlan.Namespace := CFServiceOffering.Namespace serviceOffering;
     CFServicePlan.Labels := None;
     CFServicePlan.Spec := BrokerServicePlan.zero |}.

(** The function literal [reconcileCatalogPlan] hands to [CreateOrPatch]:
    it sets the two labels, then the spec, unless the metadata cannot be
    marshalled. *)
Definition servicePlanMutateFn (serviceOffering : CFServiceOffering.t)
    (catalogPlan : Plan.t) : MutateFn := fun servicePlan =>
  let labels :=
    setLabel RelServiceOfferingLabel (CFServiceOffering.Name serviceOffering)
      (setLabel RelServiceBrokerLabel
         (label (CFServiceOffering.Labels serviceOffering) RelServiceBrokerLabel)
         (CFServicePlan.Labels servicePlan)) in
  match json_Marshal (Plan.Metadata catalogPlan) with
  | inr err =>
      Returns ({| CFServicePlan.Name := CFServicePlan.Name servicePlan;
                  CFServicePlan.Namespace := CFServicePlan.Namespace servicePlan;
                  CFServicePlan.Labels := labels;
                  CFServicePlan.Spec := CFServicePlan.Spec servicePlan |},
               Some (Errorf_w ("failed to marshal service plan "
                               ++ Quote (Plan.ID catalogPlan) ++ " metadata: ") err))
  | inl rawMetadata =>
      Returns ({| CFServicePlan.Name := CFServicePlan.Name servicePlan;
                  CFServicePlan.Namespace := CFServicePlan.Namespace servicePlan;
                  CFServicePlan.Labels := labels;
                  CFServicePlan.Spec :=
                    {| BrokerServicePlan.Name := Plan.Name catalogPlan;
                       BrokerServicePlan.Free := Plan.Free catalogPlan;
                       BrokerServicePlan.Description := Plan.Description catalogPlan;
                       BrokerServicePlan.BrokerCatalog :=
                         {| ID := Plan.ID catalogPlan;
                            Metadata := Some {| Raw := rawMetadata |};
                            Features :=
                              {| PlanUpdateable := Plan.PlanUpdateable catalogPlan;
                                 Bindable := Plan.Bindable catalogPlan |} |};
                       BrokerServicePlan.Schemas := Plan.Schemas catalogPlan |} |},
               None)
  end.

Definition reconcileCatalogPlan (serviceOffering : CFServiceOffering.t)
    (catalogPlan : Plan.t) : Go (outcome (option error)) := fun w =>
  match CreateOrPatch (servicePlanObject serviceOffering catalogPlan)
                      (servicePlanMutateFn serviceOffering catalogPlan) w with
  | (Panics v, w1) => (Panics v, w1)
  | (Returns (_, _, err), w1) => (Returns err, w1)
  end.

(** The loop of [reconcileCatalogService] over the plans of a service. *)
Fixpoint reconcileCatalogPlans (serviceOffering : CFServiceOffering.t)
    (serviceID : string) (catalogPlans : list Plan.t) : Go (outcome (option error)) :=
  fun w =>
  match catalogPlans with
  | [] => (Returns None, w)
  | catalogPlan :: rest =>
      match reconcileCatalogPlan serviceOffering catalogPlan w with
      | (Panics v, w1) => (Panics v, w1)
      | (Returns (Some err), w1) =>
          (Returns (Some (Errorf_w
             ("failed to reconcile service plan " ++ Quote (Plan.ID catalogPlan)
              ++ " for service offering " ++ Quote serviceID ++ ": ") err)), w1)
      | (Returns None, w1) => reconcileCatalogPlans serviceOffering serviceID rest w1
      end
  end.

(** The object literal [reconcileCatalogService] starts from: the name is
    derived from the name of the broker and the ID of the catalog
    service. *)
Definition serviceOfferingObject (cfServiceBroker : CFServiceBroker.t)
    (catalogService : Service.t) : CFServiceOffering.t :=
  {| CFServiceOffering.Name :=
       NamespacedUUID (CFServiceBroker.Name cfServiceBroker) (Service.ID catalogService);
     CFServiceOffering.Namespace := CFServiceBroker.Namespace cfServiceBroker;
     CFServiceOffering.Labels := None;
     CFServiceOffering.Spec := ServiceOffering.zero |}.

(** The function literal [reconcileCatalogService] hands to
    [CreateOrPatch]: it sets the broker label, then the spec. *)
Definition serviceOfferingMutateFn (cfServiceBroker : CFServiceBroker.t)
    (catalogService : Service.t) : MutateFn := fun serviceOffering =>
  let labels :=
    setLabel RelServiceBrokerLabel (CFServiceBroker.Name cfServiceBroker)
             (CFServiceOffering.Labels serviceOffering) in
  match toSpecServiceOffering catalogService with
  | Panics v => Panics v
  | Returns (spec, err) =>
      Returns ({| CFServiceOffering.Name := CFServiceOffering.Name serviceOffering;
                  CFServiceOffering.Namespace := CFServiceOffering.Namespace serviceOffering;
                  CFServiceOffering.Labels := labels;
                  CFServiceOffering.Spec := spec |}, err)
  end.

Definition reconcileCatalogService (cfServiceBroker : CFServiceBroker.t)
    (catalogService : Service.t) : Go (outcome (option error)) := fun w =>
  match CreateOrPatch (serviceOfferingObject cfServiceBroker catalogService)
                      (serviceOfferingMutateFn cfServiceBroker catalogService) w with
  | (Panics v, w1) => (Panics v, w1)
  | (Returns (_, _, Some err), w1) =>
      (Returns (Some (Errorf_w
         ("failed to reconcile service offering " ++ Quote (Service.ID catalogService)
          ++ " : ") err)), w1)
  | (Returns (serviceOffering, _, None), w1) =>
      reconcileCatalogPlans serviceOffering (Service.ID catalogService)
                            (Service.Plans catalogService) w1
  end.

(** The loop of [reconcileCatalog] over the services. *)
Fixpoint reconcileCatalogServices (cfServiceBroker : CFServiceBroker.t)
    (services : list Service.t) : Go (outcome (option error)) := fun w =>
  match services with
  | [] => (Returns None, w)
  | service :: rest =>
      match reconcileCatalogService cfServiceBroker service w with
      | (Returns None, w1) => reconcileCatalogServices cfServiceBroker rest w1
      | failed => failed
      end
  end.

Definition reconcileCatalog (cfServiceBroker : CFServiceBroker.t) (catalog : Catalog)
  : Go (outcome (option error)) :=
  reconcileCatalogServices cfServiceBroker (Services catalog).

(** The assignments [ReconcileResource] makes to the status of the broker
    it was handed. *)
Definition setObservedGeneration (g : Z) (b : CFServiceBroker.t) : CFServiceBroker.t :=
  {| CFServiceBroker.Name := CFServiceBroker.Name b;
     CFServiceBroker.Namespace := CFServiceBroker.Namespace b;
     CFServiceBroker.Generation := CFServiceBroker.Generation b;
     CFServiceBroker.Credentials := CFServiceBroker.Credentials b;
     CFServiceBroker.Status :=
       {| CFServiceBroker.Conditions :=
            CFServiceBroker.Conditions (CFServiceBroker.Status b);
          CFServiceBroker.ObservedGeneration := g;
          CFServiceBroker.CredentialsObservedVersion :=
            CFServiceBroker.CredentialsObservedVersion (CFServiceBroker.Status b) |} |}.

Definition setCredentialsObservedVersion (v : string) (b : CFServiceBroker.t)
  : CFServiceBroker.t :=
  {| CFServiceBroker.Name := CFServiceBroker.Name b;
     CFServiceBroker.Namespace := CFServiceBroker.Namespace b;
     CFServiceBroker.Generation := CFServiceBroker.Generation b;
     CFServiceBroker.Credentials := CFServiceBroker.Credentials b;
     CFServiceBroker.Status :=
       {| CFServiceBroker.Conditions :=
            CFServiceBroker.Conditions (CFServiceBroker.Status b);
          CFServiceBroker.ObservedGeneration :=
            CFServiceBroker.ObservedGeneration (CFServiceBroker.Status b);
          CFServiceBroker.CredentialsObservedVersion := v |} |}.

Definition setConditions (cs : list Condition.t) (b : CFServiceBroker.t)
  : CFServiceBroker.t :=
  {| CFServiceBroker.Name := CFServiceBroker.Name b;
     CFServiceBroker.Namespace := CFServiceBroker.Namespace b;
     CFServiceBroker.Generation := CFServiceBroker.Generation b;
     CFServiceBroker.Credentials := CFServiceBroker.Credentials b;
     CFServiceBroker.Status :=
       {| CFServiceBroker.Conditions := cs;
          CFServiceBroker.ObservedGeneration :=
            CFServiceBroker.ObservedGeneration (CFServiceBroker.Status b);
          CFServiceBroker.CredentialsObservedVersion :=
            CFServiceBroker.CredentialsObservedVersion (CFServiceBroker.Status b) |} |}.

(** What the deferred function of [ReconcileResource] finds when the body
    is left: the broker behind the pointer, the local variable [err], and
    the builder. *)
Record Frame := {
  broker : CFServiceBroker.t;
  err : option error;
  readyConditionBuilder : ReadyConditionBuilder.t
}.

(** The body of [ReconcileResource], up to the point where it returns or
    panics. *)
Definition ReconcileResource_body (r : Reconciler) (cfServiceBroker : CFServiceBroker.t)
  : Go (outcome (Result * option error) * Frame) := fun w =>
  let cfServiceBroker :=
    setObservedGeneration (CFServiceBroker.Generation cfServiceBroker) cfServiceBroker in
  let builder := NewReadyConditionBuilder cfServiceBroker in
  let '(got, w1) :=
    GetSecret (CFServiceBroker.Namespace cfServiceBroker,
               CFServiceBroker.Credentials cfServiceBroker) w in
  match got with
  | inr e =>
      let fr := {| broker := cfServiceBroker; err := Some e;
                   readyConditionBuilder :=
                     ReadyConditionBuilder.WithReason "CredentialsSecretNotAvailable"
                                                      builder |} in
      if IsNotFound e
      then (Returns ({| Requeue := false; RequeueAfter := 2 * Second |}, None), fr, w1)
      else (Returns (Result_zero, Some e), fr, w1)
  | inl credentialsSecret =>
      match validateCredentials credentialsSecret with
      | Some e =>
          (Returns (Result_zero, Some e),
           {| broker := cfServiceBroker; err := Some e;
              readyConditionBuilder :=
                ReadyConditionBuilder.WithReason "SecretInvalid" builder |}, w1)
      | None =>
          let cfServiceBroker :=
            setCredentialsObservedVersion (Secret.ResourceVersion credentialsSecret)
                                          cfServiceBroker in
          let w2 := emit (EvGetCatalog (CFServiceBroker.Name cfServiceBroker)) w1 in
          match GetCatalog (catalogClient r) cfServiceBroker with
          | (_, Some e) =>
              (Returns (Result_zero, Some e),
               {| broker := cfServiceBroker; err := Some e;
                  readyConditionBuilder :=
                    ReadyConditionBuilder.WithReason "GetCatalogFailed" builder |}, w2)
          | (None, None) =>
              (Panics "runtime error: invalid memory address or nil pointer dereference",
               {| broker := cfServiceBroker; err := None;
                  readyConditionBuilder := builder |}, w2)
          | (Some catalog, None) =>
              match reconcileCatalog cfServiceBroker catalog w2 with
              | (Panics v, w3) =>
                  (Panics v,
                   {| broker := cfServiceBroker; err := None;
                      readyConditionBuilder := builder |}, w3)
              | (Returns (Some e), w3) =>
                  (Returns (Result_zero,
                            Some (Errorf_v "failed to reconcile catalog: " e)),
                   {| broker := cfServiceBroker; err := Some e;
                      readyConditionBuilder := builder |}, w3)
              | (Returns None, w3) =>
                  (Returns (Result_zero, None),
                   {| broker := cfServiceBroker; err := None;
                      readyConditionBuilder := ReadyConditionBuilder.Ready builder |}, w3)
              end
          end
      end
  end.

(** The condition the deferred function builds from the frame. *)
Definition deferredCondition (now : Z) (fr : Frame) : Condition.t :=
  ReadyConditionBuilder.Build now
    (ReadyConditionBuilder.WithError (err fr) (readyConditionBuilder fr)).

(** [ReconcileResource]: the body, then the deferred function, which runs
    whether the body returned or panicked. The broker comes back as the
    caller's pointer sees it. *)
Definition ReconcileResource (r : Reconciler) (cfServiceBroker : CFServiceBroker.t)
  : Go (outcome (Result * option error) * CFServiceBroker.t) := fun w =>
  let '(out, fr, w1) := ReconcileResource_body r cfServiceBroker w in
  let c := deferredCondition (clock w1) fr in
  (out,
   setConditions
     (SetStatusCondition (clock w1)
        (CFServiceBroker.Conditions (CFServiceBroker.Status (broker fr))) c)
     (broker fr),
   emit (EvSetStatusCondition c) w1).
End Controller.

(** ** An instance of the dependencies

    A small instance on which the definitions can be evaluated: names are
    derived by joining the two strings, [%q] puts quotes around a string
    (which is what [strconv.Quote] does to printable text with no quote or
    backslash in it), the decoder knows four documents, and the encoder
    covers the maps whose values are strings, booleans or null. *)
Module Example.
Definition quoted (s : string) : string := dquote ++ s ++ dquote.

Definition credentials_document : bytes :=
  "{" ++ quoted "username" ++ ":" ++ quoted "admin" ++ ","
      ++ quoted "password" ++ ":" ++ quoted "secret" ++ "}".

Definition username_only_document : bytes :=
  "{" ++ quoted "username" ++ ":" ++ quoted "admin" ++ "}".

Definition decode (data : bytes) : any + error :=
  if decide (data = credentials_document)
  then inl (AnyMap {[ "username" := AnyString "admin"; "password" := AnyString "secret" ]})
  else if decide (data = username_only_document)
  then inl (AnyMap {[ "username" := AnyString "admin" ]})
  else if decide (data = "null") then inl AnyNil
  else if decide (data = "[]") then inl (AnySlice [])
  else inr (ErrorString "invalid character 'x' looking for beginning of value").

Definition encode_value (v : any) : option string :=
  match v with
  | AnyNil => Some "null"
  | AnyBool true => Some "true"
  | AnyBool false => Some "false"
  | AnyString s => Some (quoted s)
  | _ => None
  end.

Fixpoint encode_members (l : list (string * any)) : option string :=
  match l with
  | [] => Some EmptyString
  | (k, v) :: rest =>
      match encode_value v, encode_members rest with
      | Some ev, Some er =>
          Some (quoted k ++ ":" ++ ev
                ++ match rest with [] => EmptyString | _ => "," end ++ er)
      | _, _ => None
      end
  end.

Definition encode (m : option (gmap string any)) : bytes + error :=
  match m with
  | None => inl "null"
  | Some m =>
      match encode_members (map_to_list m) with
      | Some members => inl ("{" ++ members ++ "}")
      | None => inr (ErrorString "json: unsupported value")
      end
  end.

#[export] Instance deps : Deps := {|
  NamespacedUUID := fun namespace name => namespace ++ "::" ++ name;
  CredentialsSecretKey := "credentials";
  UsernameCredentialsKey := "username";
  PasswordCredentialsKey := "password";
  RelServiceBrokerLabel := "korifi.cloudfoundry.org/rel-service-broker";
  RelServiceOfferingLabel := "korifi.cloudfoundry.org/rel-service-offering";
  InitialReason := "Unknown";
  Quote := quoted;
  json_decode := decode;
  json_Marshal := encode
|}.

Definition no_schemas : ServicePlanSchemas :=
  {| ServiceInstance := {| si_Create := {| Parameters := None |};
                           si_Update := {| Parameters := None |} |};
     ServiceBinding := {| sb_Create := {| Parameters := None |} |} |}.

(** The plan of the round-trip example of the spec. *)
Definition plan : Plan.t :=
  {| Plan.ID := "broker-plan-guid"; Plan.Name := "my-service-plan";
     Plan.Description := "service plan description"; Plan.Free := true;
     Plan.Bindable := true; Plan.PlanUpdateable := true;
     Plan.Metadata := Some {[ "foo" := AnyString "bar" ]};
     Plan.Schemas :=
       {| ServiceInstance :=
            {| si_Create :=
                 {| Parameters :=
                      Some {| Raw := "{" ++ quoted "create-param" ++ ":"
                                         ++ quoted "create-value" ++ "}" |} |};
               si_Update := {| Parameters := None |} |};
          ServiceBinding := {| sb_Create := {| Parameters := None |} |} |} |}.

Definition service (id name : string) (plans : list Plan.t) : Service.t :=
  {| Service.ID := id; Service.Name := name;
     Service.Description := "a service"; Service.Tags := []; Service.Requires := [];
     Service.BrokerCatalogFeatures := {| bcf_PlanUpdateable := false; bcf_Bindable := true |};
     Service.Metadata := None; Service.Plans := plans |}.

Definition cfServiceBroker : CFServiceBroker.t :=
  {| CFServiceBroker.Name := "my-broker"; CFServiceBroker.Namespace := "cf";
     CFServiceBroker.Generation := 3; CFServiceBroker.Credentials := "my-broker-secret";
     CFServiceBroker.Status :=
       {| CFServiceBroker.Conditions := [];
          CFServiceBroker.ObservedGeneration := 0;
          CFServiceBroker.CredentialsObservedVersion := EmptyString |} |}.

Definition secret (document : bytes) : Secret.t :=
  {| Secret.Name := "my-broker-secret"; Secret.Namespace := "cf";
     Secret.ResourceVersion := "42";
     Secret.Data := {[ "credentials" := document ]} |}.

(** An empty cluster, and one that holds the broker and its secret. *)
Definition empty : World :=
  {| secrets := ∅; brokers := ∅; offerings := ∅; plans := ∅;
     faults := []; clock := 1000; trace := [] |}.

Definition cluster (document : bytes) (faults : list (option error)) : World :=
  {| secrets := {[ ("cf", "my-broker-secret") := secret document ]};
     brokers := {[ ("cf", "my-broker") := cfServiceBroker ]};
     offerings := ∅; plans := ∅;
     faults := faults; clock := 1000; trace := [] |}.

Definition reconciler (catalog : Catalog) : Reconciler :=
  {| catalogClient := {| GetCatalog := fun _ => (Some catalog, None) |} |}.
End Example.

(** * Properties of the client *)

#[local] Open Scope list_scope.

(** The events that are requests to the API server. *)
Definition isRequest (ev : Event) : bool :=
  match ev with
  | EvGet _ _ | EvList _ _ _ _ | EvCreate _ | EvPatch _ => true
  | EvGetCatalog _ | EvSetStatusCondition _ => false
  end.

(** The conditions written to the broker, and the brokers the catalog client
    was called for, in a trace. *)
Definition conditionWrites (t : list Event) : list Condition.t :=
  omap (fun ev => match ev with EvSetStatusCondition c => Some c | _ => None end) t.

Definition catalogCalls (t : list Event) : list string :=
  omap (fun ev => match ev with EvGetCatalog b => Some b | _ => None end) t.



(** [requestsOnly w w']: from [w] to [w'] nothing happened but requests to
    the API server, and none of them touched a secret, a broker or the
    clock. *)
Definition requestsOnly (w w' : World) : Prop :=
  (exists delta, trace w' = trace w ++ delta /\ Forall (fun ev => isRequest ev = true) delta)
  /\ secrets w' = secrets w /\ brokers w' = brokers w /\ clock w' = clock w.

(** [sameObjects w w']: no offering and no plan differs. *)
Definition sameObjects (w w' : World) : Prop :=
  offerings w' = offerings w /\ plans w' = plans w.

Lemma requestsOnly_refl w : requestsOnly w w.
Proof.
  repeat split; try done. exists []. by rewrite app_nil_r.
Qed.

Lemma requestsOnly_trans w1 w2 w3 :
  requestsOnly w1 w2 -> requestsOnly w2 w3 -> requestsOnly w1 w3.
Proof.
  intros [[d1 [Ht1 Hd1]] (Hs1 & Hb1 & Hc1)] [[d2 [Ht2 Hd2]] (Hs2 & Hb2 & Hc2)].
  repeat split; try congruence.
  exists (d1 ++ d2). split.
  - by rewrite Ht2, Ht1, app_assoc.
  - by apply Forall_app.
Qed.

Lemma requestsOnly_request ev w :
  isRequest ev = true -> requestsOnly w (request ev w).2.
Proof.
  intros Hev. unfold request. destruct (faults w); simpl;
    (repeat split; try done; exists [ev]; split; [done | by constructor]).
Qed.

Lemma sameObjects_refl w : sameObjects w w.
Proof. by split. Qed.

Lemma sameObjects_trans w1 w2 w3 :
  sameObjects w1 w2 -> sameObjects w2 w3 -> sameObjects w1 w3.
Proof. intros [? ?] [? ?]. split; congruence. Qed.

Lemma sameObjects_request ev w : sameObjects w (request ev w).2.
Proof. unfold request. by destruct (faults w). Qed.

Lemma requestsOnly_conditionWrites w w' :
  requestsOnly w w' -> conditionWrites (trace w') = conditionWrites (trace w).
Proof.
  intros [[delta [-> Hd]] _]. unfold conditionWrites. rewrite omap_app.
  rewrite <- (app_nil_r (omap _ (trace w))) at 2. f_equal.
  induction Hd as [|ev delta Hev _ IH]; [done|].
  by destruct ev.
Qed.

Lemma requestsOnly_catalogCalls w w' :
  requestsOnly w w' -> catalogCalls (trace w') = catalogCalls (trace w).
Proof.
  intros [[delta [-> Hd]] _]. unfold catalogCalls. rewrite omap_app.
  rewrite <- (app_nil_r (omap _ (trace w))) at 2. f_equal.
  induction Hd as [|ev delta Hev _ IH]; [done|].
  by destruct ev.
Qed.

(** The key of an object of either kind. *)
Definition objectKey (o : Object) : NamespacedName :=
  match o with
  | OfferingObject x => (CFServiceOffering.Namespace x, CFServiceOffering.Name x)
  | PlanObject x => (CFServicePlan.Namespace x, CFServicePlan.Name x)
  end.

(** What [stored] and [store] owe each other, for every kind of object. *)
Class ClientObjectLaws (T : Type) `{ClientObject T} := {
  objectKey_toObject o : objectKey (toObject o) = ObjectKeyFromObject o;
  store_stored w : store (stored w) w = w;
  stored_request ev w : stored (request ev w).2 = stored w;
  stored_store m w : stored (store m w) = m;
  trace_store m w : trace (store m w) = trace w;
  faults_store m w : faults (store m w) = faults w;
  clock_store m w : clock (store m w) = clock w;
  secrets_store m w : secrets (store m w) = secrets w;
  brokers_store m w : brokers (store m w) = brokers w
}.

#[global] Instance CFServiceOffering_laws : ClientObjectLaws CFServiceOffering.t.
Proof.
  split; try done.
  - by intros [].
  - intros ev w. unfold request. by destruct (faults w).
Qed.

#[global] Instance CFServicePlan_laws : ClientObjectLaws CFServicePlan.t.
Proof.
  split; try done.
  - by intros [].
  - intros ev w. unfold request. by destruct (faults w).
Qed.

Section ClientProperties.
Context {T : Type} `{ClientObjectLaws T}.

Lemma requestsOnly_store (m : gmap NamespacedName T) w : requestsOnly w (store m w).
Proof.
  repeat split.
  - exists []. by rewrite trace_store, app_nil_r.
  - apply secrets_store.
  - apply brokers_store.
  - apply clock_store.
Qed.

Lemma Get_requestsOnly key w got w' :
  Get (T:=T) key w = (got, w') -> requestsOnly w w' /\ sameObjects w w'.
Proof.
  unfold Get. destruct (request _ w) as [fault w1] eqn:Hr.
  assert (w1 = (request (EvGet kind key) w).2) as -> by by rewrite Hr.
  intros Hg.
  assert (w' = (request (EvGet kind key) w).2) as ->
    by (repeat case_match; by simplify_eq).
  split; [by apply requestsOnly_request | apply sameObjects_request].
Qed.

Lemma Create_requestsOnly (obj : T) w cerr w' :
  Create obj w = (cerr, w') -> requestsOnly w w'.
Proof.
  unfold Create. destruct (request _ w) as [fault w1] eqn:Hr.
  assert (w1 = (request (EvCreate (toObject obj)) w).2) as -> by by rewrite Hr.
  intros Hc.
  repeat case_match; simplify_eq;
    try by apply requestsOnly_request.
  eapply requestsOnly_trans; [|apply requestsOnly_store]. by apply requestsOnly_request.
Qed.

Lemma Patch_requestsOnly (obj : T) w perr w' :
  Patch obj w = (perr, w') -> requestsOnly w w'.
Proof.
  unfold Patch. destruct (request _ w) as [fault w1] eqn:Hr.
  assert (w1 = (request (EvPatch (toObject obj)) w).2) as -> by by rewrite Hr.
  intros Hc.
  repeat case_match; simplify_eq;
    try by apply requestsOnly_request.
  eapply requestsOnly_trans; [|apply requestsOnly_store]. by apply requestsOnly_request.
Qed.

(** A create or a patch that fails has stored nothing. *)
Lemma Create_failed (obj : T) w e w' :
  Create obj w = (Some e, w') -> sameObjects w w'.
Proof.
  unfold Create. destruct (request _ w) as [fault w1] eqn:Hr.
  assert (w1 = (request (EvCreate (toObject obj)) w).2) as -> by by rewrite Hr.
  intros Hc. repeat case_match; simplify_eq; apply sameObjects_request.
Qed.

Lemma Patch_failed (obj : T) w e w' :
  Patch obj w = (Some e, w') -> sameObjects w w'.
Proof.
  unfold Patch. destruct (request _ w) as [fault w1] eqn:Hr.
  assert (w1 = (request (EvPatch (toObject obj)) w).2) as -> by by rewrite Hr.
  intros Hc. repeat case_match; simplify_eq; apply sameObjects_request.
Qed.

Lemma CreateOrPatch_requestsOnly (obj : T) f w out w' :
  CreateOrPatch obj f w = (out, w') -> requestsOnly w w'.
Proof.
  unfold CreateOrPatch. destruct (Get _ w) as [got w1] eqn:Hg.
  apply Get_requestsOnly in Hg as [Hg _]. intros Hc.
  repeat case_match; simplify_eq; try done;
    (eapply requestsOnly_trans; [exact Hg|]);
    eauto using Create_requestsOnly, Patch_requestsOnly.
Qed.

(** An upsert that comes back with an error, or panics, leaves every
    offering and every plan as it was. *)
Lemma CreateOrPatch_failed (obj : T) f w out w' :
  CreateOrPatch obj f w = (out, w') ->
  (forall o r, out <> Returns (o, r, None)) ->
  sameObjects w w'.
Proof.
  unfold CreateOrPatch. destruct (Get _ w) as [got w1] eqn:Hg.
  apply Get_requestsOnly in Hg as [_ Hg]. intros Hc Hout.
  repeat case_match; simplify_eq; try done;
    try (by exfalso; eapply Hout);
    (eapply sameObjects_trans; [exact Hg|]);
    eauto using Create_failed, Patch_failed.
Qed.
End ClientProperties.

(** ** What an upsert stores *)

Lemma request_trace ev w f w' : request ev w = (f, w') -> trace w' = trace w ++ [ev].
Proof. unfold request. destruct (faults w); intros; by simplify_eq. Qed.

Lemma request_fault_free ev w :
  faults w = [] -> request ev w = (None, emit ev w).
Proof. unfold request. by intros ->. Qed.

Section Upsert.
Context {T : Type} `{ClientObjectLaws T}.

(** Every object is stored under its own key. *)
Definition wellKeyed (m : gmap NamespacedName T) : Prop :=
  forall k x, m !! k = Some x -> ObjectKeyFromObject x = k.


Lemma request_stored ev w f w' : request ev w = (f, w') -> stored (T:=T) w' = stored w.
Proof.
  intros Hr. replace w' with (request ev w).2 by by rewrite Hr. apply stored_request.
Qed.

Ltac request_facts :=
  repeat match goal with
    | Hr : request ?ev ?wa = (_, ?wb) |- _ =>
        pose proof (request_trace _ _ _ _ Hr);
        pose proof (request_stored _ _ _ _ Hr);
        clear Hr
    end.


(** An upsert that succeeds hands back the mutation of the stored object
    (or of the given object, when none is stored); that object is stored
    under the key afterwards, and no other key of the kind has changed. *)
Lemma CreateOrPatch_succeeded (obj : T) f w o r w' :
  CreateOrPatch obj f w = (Returns (o, r, None), w') ->
  let key := ObjectKeyFromObject obj in
  f (default obj (stored w !! key)) = Returns (o, None)
  /\ ObjectKeyFromObject o = key
  /\ stored w' !! key = Some o
  /\ forall k, k <> key -> stored w' !! k = stored w !! k.
Proof.
  unfold CreateOrPatch, Get, Create, Patch, mutate.
  intros Hc. cbv zeta.
  repeat case_match; simplify_eq; request_facts.
  all: rewrite ?stored_store.
  all: repeat match goal with Hs : stored _ = stored _ |- _ => rewrite Hs in *; clear Hs end.
  all: repeat match goal with
       | e : ObjectKeyFromObject ?a = ObjectKeyFromObject ?b |- _ =>
           rewrite ?e in *; clear e
       end.
  all: match goal with
       | Hl : stored _ !! ObjectKeyFromObject _ = _ |- _ => rewrite Hl
       end; simpl.
  all: repeat split; try done.
  all: try (by rewrite lookup_insert_eq).
  all: try (by intros k Hk; rewrite lookup_insert_ne).
  congruence.
Qed.

(** What a mutation makes of an object, when it returns. *)
Definition applied (f : MutateFn) (x : T) : T :=
  match f x with
  | Returns (y, _) => y
  | Panics _ => x
  end.

(** The mutation returns without an error on every object, and keeps the
    key. *)
Definition succeeds (f : MutateFn) : Prop :=
  forall x, exists y,
    f x = Returns (y, None) /\ ObjectKeyFromObject y = ObjectKeyFromObject x.

(** The store after an upsert that met no failure, and the requests it
    took. *)
Definition upsert (obj : T) (f : MutateFn) (m : gmap NamespacedName T)
  : gmap NamespacedName T :=
  <[ObjectKeyFromObject obj :=
      applied f (default obj (m !! ObjectKeyFromObject obj))]> m.

Definition upsertEvents (obj : T) (f : MutateFn) (m : gmap NamespacedName T)
  : list Event :=
  EvGet kind (ObjectKeyFromObject obj)
  :: match m !! ObjectKeyFromObject obj with
     | None => [EvCreate (toObject (applied f obj))]
     | Some x => if decide (x = applied f x) then []
                 else [EvPatch (toObject (applied f x))]
     end.

Lemma stored_emit ev w : faults w = [] -> stored (T:=T) (emit ev w) = stored w.
Proof.
  intros Hf. rewrite <- (stored_request ev w). by rewrite request_fault_free.
Qed.

Lemma wellKeyed_upsert (obj : T) f m :
  succeeds f -> wellKeyed m -> wellKeyed (upsert obj f m).
Proof.
  intros Hs Hm k x. unfold upsert.
  destruct (decide (k = ObjectKeyFromObject obj)) as [->|Hk].
  - rewrite lookup_insert_eq. intros [= <-]. unfold applied.
    destruct (Hs (default obj (m !! ObjectKeyFromObject obj))) as (y & -> & ->).
    destruct (m !! ObjectKeyFromObject obj) as [x|] eqn:Hx; simpl; [|done].
    by apply Hm.
  - rewrite lookup_insert_ne by done. apply Hm.
Qed.

(** With no failure in store and a mutation that succeeds, the upsert
    succeeds, and the store and the trace afterwards are the ones
    [upsert] and [upsertEvents] give. *)
Lemma CreateOrPatch_fault_free (obj : T) f w :
  faults w = [] -> wellKeyed (stored w) -> succeeds f ->
  exists r w',
    CreateOrPatch obj f w
    = (Returns (applied f (default obj (stored w !! ObjectKeyFromObject obj)), r, None),
       w')
    /\ stored w' = upsert obj f (stored w)
    /\ faults w' = []
    /\ trace w' = trace w ++ upsertEvents obj f (stored w).
Proof.
  intros Hf Hwk Hs.
  unfold CreateOrPatch, Get, Create, Patch, mutate, upsert, upsertEvents, applied.
  rewrite (request_fault_free _ w Hf), (stored_emit _ w Hf).
  destruct (stored w !! ObjectKeyFromObject obj) as [x|] eqn:Hx; simpl.
  - destruct (Hs x) as (y & Hy & Hk). rewrite Hy.
    rewrite (Hwk _ _ Hx) in Hk. rewrite decide_True by done.
    destruct (decide (x = y)) as [<-|Hne].
    + eexists _, _. split; [reflexivity|].
      rewrite stored_emit, insert_id by done. done.
    + rewrite (request_fault_free _ (emit _ w)) by done.
      rewrite !stored_emit by done. rewrite Hk, Hx.
      eexists _, _. split; [reflexivity|].
      rewrite stored_store, faults_store, trace_store. simpl.
      by rewrite <- app_assoc.
  - destruct (Hs obj) as (y & Hy & Hk). rewrite Hy.
    rewrite decide_True by done.
    rewrite (request_fault_free _ (emit _ w)) by done.
    rewrite !stored_emit by done. rewrite Hk, Hx.
    eexists _, _. split; [reflexivity|].
    rewrite stored_store, faults_store, trace_store. simpl.
    by rewrite <- app_assoc.
Qed.
(** An upsert that succeeds, with or without failures in store, has
    stored what [upsert] gives and has sent the requests [upsertEvents]
    gives. *)
Lemma CreateOrPatch_succeeded_upsert (obj : T) f w o r w' :
  CreateOrPatch obj f w = (Returns (o, r, None), w') ->
  o = applied f (default obj (stored w !! ObjectKeyFromObject obj))
  /\ stored w' = upsert obj f (stored w)
  /\ trace w' = trace w ++ upsertEvents obj f (stored w).
Proof.
  intros Hc.
  destruct (CreateOrPatch_succeeded _ _ _ _ _ _ Hc) as (Hf & Hk & Hl & Hother).
  assert (o = applied f (default obj (stored w !! ObjectKeyFromObject obj))) as Ho
    by (unfold applied; by rewrite Hf).
  split; [done|]. split.
  { apply map_eq. intros k. unfold upsert. rewrite <- Ho.
    destruct (decide (k = ObjectKeyFromObject obj)) as [->|Hne].
    - by rewrite lookup_insert_eq.
    - rewrite lookup_insert_ne by done. by apply Hother. }
  clear Ho Hl Hother Hk.
  revert Hc Hf. unfold CreateOrPatch, Get, Create, Patch, mutate, upsertEvents, applied.
  intros Hc Hf.
  destruct (stored w !! ObjectKeyFromObject obj) as [x|] eqn:Hx; simpl in Hf;
    rewrite Hf.
  all: repeat case_match; simplify_eq; request_facts.
  all: rewrite ?trace_store.
  all: repeat match goal with Ht : trace _ = _ |- _ => rewrite Ht; clear Ht end.
  all: rewrite <- ?app_assoc; simpl.
  all: repeat match goal with Hs : stored _ = stored _ |- _ => rewrite Hs in *; clear Hs end.
  all: simplify_eq; simpl in *; try done.
  all: repeat match goal with Hd : decide _ = _ |- _ => clear Hd end.
  all: try (exfalso; congruence).
Qed.

End Upsert.

(** An upsert of an offering leaves the plans alone, and the other way
    round. *)
Lemma CreateOrPatch_offering_plans (obj : CFServiceOffering.t) f w out w' :
  CreateOrPatch obj f w = (out, w') -> plans w' = plans w.
Proof.
  unfold CreateOrPatch, Get, Create, Patch, request. intros Hc.
  repeat case_match; by simplify_eq.
Qed.

Lemma CreateOrPatch_plan_offerings (obj : CFServicePlan.t) f w out w' :
  CreateOrPatch obj f w = (out, w') -> offerings w' = offerings w.
Proof.
  unfold CreateOrPatch, Get, Create, Patch, request. intros Hc.
  repeat case_match; by simplify_eq.
Qed.

(** * Properties of the status conditions *)

(** How many conditions of a type a list holds. *)
Definition countConditions (conditionType : string) (conditions : list Condition.t) : nat :=
  length (filter (fun c => Condition.Type_ c = conditionType) conditions).

Lemma FindStatusCondition_SetStatusCondition now conditions c :
  exists c',
    FindStatusCondition (SetStatusCondition now conditions c) (Condition.Type_ c) = Some c'
    /\ Condition.Type_ c' = Condition.Type_ c
    /\ Condition.Status c' = Condition.Status c
    /\ Condition.Reason c' = Condition.Reason c
    /\ Condition.Message c' = Condition.Message c
    /\ Condition.ObservedGeneration c' = Condition.ObservedGeneration c.
Proof.
  induction conditions as [|c0 rest IH]; simpl.
  - destruct (decide (Condition.LastTransitionTime c = 0)); simpl;
      (rewrite decide_True by done); eauto 10.
  - destruct (decide (Condition.Type_ c0 = Condition.Type_ c)) as [Hty|Hty]; simpl.
    + rewrite decide_True by done. eauto 10.
    + rewrite decide_False by done. exact IH.
Qed.

Lemma countConditions_SetStatusCondition now conditions c :
  countConditions (Condition.Type_ c) (SetStatusCondition now conditions c)
  = Nat.max 1 (countConditions (Condition.Type_ c) conditions).
Proof.
  unfold countConditions.
  induction conditions as [|c0 rest IH]; simpl.
  - destruct (decide (Condition.LastTransitionTime c = 0));
      by rewrite filter_cons_True.
  - destruct (decide (Condition.Type_ c0 = Condition.Type_ c)) as [Hty|Hty].
    + rewrite !filter_cons_True by done. simpl. lia.
    + rewrite !filter_cons_False by done. exact IH.
Qed.

(** * Properties of the controller *)

Section ControllerProperties.
Context `{Deps}.

Lemma GetSecret_requestsOnly key w got w' :
  GetSecret key w = (got, w') -> requestsOnly w w' /\ sameObjects w w'.
Proof.
  unfold GetSecret. destruct (request _ w) as [fault w1] eqn:Hr.
  assert (w1 = (request (EvGet KSecret key) w).2) as -> by by rewrite Hr.
  intros Hg.
  assert (w' = (request (EvGet KSecret key) w).2) as ->
    by (repeat case_match; by simplify_eq).
  split; [by apply requestsOnly_request | apply sameObjects_request].
Qed.

Lemma reconcileCatalogPlan_requestsOnly so p w out w' :
  reconcileCatalogPlan so p w = (out, w') -> requestsOnly w w'.
Proof.
  unfold reconcileCatalogPlan.
  destruct (CreateOrPatch _ _ w) as [r w1] eqn:Hc.
  apply CreateOrPatch_requestsOnly in Hc.
  intros Hr. repeat case_match; by simplify_eq.
Qed.

Lemma reconcileCatalogPlans_requestsOnly so id ps w out w' :
  reconcileCatalogPlans so id ps w = (out, w') -> requestsOnly w w'.
Proof.
  revert w. induction ps as [|p ps IH]; simpl; intros w Hr.
  - simplify_eq. apply requestsOnly_refl.
  - destruct (reconcileCatalogPlan so p w) as [r w1] eqn:Hp.
    apply reconcileCatalogPlan_requestsOnly in Hp.
    repeat case_match; simplify_eq; try done.
    eapply requestsOnly_trans; [exact Hp | by apply IH].
Qed.

Lemma reconcileCatalogService_requestsOnly b s w out w' :
  reconcileCatalogService b s w = (out, w') -> requestsOnly w w'.
Proof.
  unfold reconcileCatalogService.
  destruct (CreateOrPatch _ _ w) as [r w1] eqn:Hc.
  apply CreateOrPatch_requestsOnly in Hc.
  intros Hr. repeat case_match; simplify_eq; try done.
  eapply requestsOnly_trans; [exact Hc | by eapply reconcileCatalogPlans_requestsOnly].
Qed.

Lemma reconcileCatalogServices_requestsOnly b ss w out w' :
  reconcileCatalogServices b ss w = (out, w') -> requestsOnly w w'.
Proof.
  revert w. induction ss as [|s ss IH]; simpl; intros w Hr.
  - simplify_eq. apply requestsOnly_refl.
  - destruct (reconcileCatalogService b s w) as [r w1] eqn:Hs.
    apply reconcileCatalogService_requestsOnly in Hs.
    repeat case_match; simplify_eq; try done.
    eapply requestsOnly_trans; [exact Hs | by apply IH].
Qed.

Lemma reconcileCatalog_requestsOnly b c w out w' :
  reconcileCatalog b c w = (out, w') -> requestsOnly w w'.
Proof. apply reconcileCatalogServices_requestsOnly. Qed.

(** The body writes no condition. *)
Lemma ReconcileResource_body_conditionWrites r b w out fr w1 :
  ReconcileResource_body r b w = (out, fr, w1) ->
  conditionWrites (trace w1) = conditionWrites (trace w).
Proof.
  unfold ReconcileResource_body.
  destruct (GetSecret _ w) as [got w0] eqn:Hg.
  apply GetSecret_requestsOnly in Hg as [Hg _].
  apply requestsOnly_conditionWrites in Hg.
  intros Hb. repeat case_match; simplify_eq; try done.
  all: try (match goal with
            | Hc : reconcileCatalog _ _ _ = _ |- _ =>
                apply reconcileCatalog_requestsOnly in Hc;
                apply requestsOnly_conditionWrites in Hc; rewrite Hc
            end).
  all: simpl; unfold conditionWrites in *; rewrite omap_app; simpl;
    by rewrite app_nil_r.
Qed.

(** The reasons the body can leave on the builder. *)
Definition reasons : list string :=
  ["CredentialsSecretNotAvailable"; "SecretInvalid"; "GetCatalogFailed"; InitialReason].

(** Where the body returns, the builder is ready exactly when the local
    variable [err] is [nil]; then the returned error is [nil] too, and
    otherwise the builder is not ready and carries one of the reasons. *)
Lemma ReconcileResource_body_returns r b w res e fr w1 :
  ReconcileResource_body r b w = (Returns (res, e), fr, w1) ->
  match err fr with
  | None =>
      readyConditionBuilder fr
      = ReadyConditionBuilder.Ready (NewReadyConditionBuilder
          (setObservedGeneration (CFServiceBroker.Generation b) b))
      /\ e = None /\ res = Result_zero
  | Some _ =>
      ReadyConditionBuilder.status (readyConditionBuilder fr) = ConditionFalse
      /\ ReadyConditionBuilder.reason (readyConditionBuilder fr) ∈ reasons
  end.
Proof.
  unfold ReconcileResource_body, reasons.
  destruct (GetSecret _ w) as [got w0].
  intros Hb. repeat case_match; simplify_eq; simpl; try done.
  all: split; [done|]. all: set_solver.
Qed.

(** The condition the deferred function writes is a Ready condition with
    the status, reason and message the builder has by then. *)
Lemma deferredCondition_fields now fr :
  let c := deferredCondition now fr in
  Condition.Type_ c = StatusConditionReady
  /\ Condition.Status c = ReadyConditionBuilder.status (readyConditionBuilder fr)
  /\ Condition.Reason c = ReadyConditionBuilder.reason (readyConditionBuilder fr)
  /\ Condition.Message c
     = match err fr with
       | None => ReadyConditionBuilder.message (readyConditionBuilder fr)
       | Some e => Error e
       end.
Proof. unfold deferredCondition. by destruct (err fr). Qed.

(** ** The terminal condition *)

(** C1. Every invocation of [ReconcileResource] writes exactly one status
    condition to the broker, as its last action: a Ready condition, which
    is the one found on the broker afterwards (and the only Ready
    condition there, if the broker had at most one). If the invocation
    returns, the status of that condition is True when the final value of
    its error variable [err] is [nil], in which case the returned error is
    [nil] as well; otherwise the status is False, the message is the text
    of that error, and the reason is CredentialsSecretNotAvailable,
    SecretInvalid, GetCatalogFailed or the reason the builder starts
    with. *)
Theorem ReconcileResource_writes_ready_condition_once r b w out b' w' :
  ReconcileResource r b w = (out, b', w') ->
  exists fr w1 c,
    ReconcileResource_body r b w = (out, fr, w1)
    /\ Condition.Type_ c = StatusConditionReady
    /\ trace w' = trace w1 ++ [EvSetStatusCondition c]
    /\ conditionWrites (trace w') = conditionWrites (trace w) ++ [c]
    /\ (exists c',
          FindStatusCondition (CFServiceBroker.Conditions (CFServiceBroker.Status b'))
                              StatusConditionReady = Some c'
          /\ Condition.Status c' = Condition.Status c
          /\ Condition.Reason c' = Condition.Reason c
          /\ Condition.Message c' = Condition.Message c)
    /\ countConditions StatusConditionReady
         (CFServiceBroker.Conditions (CFServiceBroker.Status b'))
       = Nat.max 1 (countConditions StatusConditionReady
                      (CFServiceBroker.Conditions (CFServiceBroker.Status b)))
    /\ (forall res e, out = Returns (res, e) ->
         match err fr with
         | None => Condition.Status c = ConditionTrue /\ e = None
         | Some cause =>
             Condition.Status c = ConditionFalse
             /\ Condition.Message c = Error cause
             /\ Condition.Reason c ∈ reasons
         end).
Proof.
  unfold ReconcileResource.
  destruct (ReconcileResource_body r b w) as [[out0 fr] w1] eqn:Hbody.
  intros Heq. simplify_eq.
  pose proof (deferredCondition_fields (clock w1) fr) as (Hty & Hst & Hre & Hme).
  exists fr, w1, (deferredCondition (clock w1) fr).
  split; [done|]. split; [done|]. split; [done|]. split.
  { simpl. unfold conditionWrites. rewrite omap_app. simpl.
    f_equal. by eapply ReconcileResource_body_conditionWrites. }
  split.
  { simpl.
    destruct (FindStatusCondition_SetStatusCondition (clock w1)
                (CFServiceBroker.Conditions (CFServiceBroker.Status (broker fr)))
                (deferredCondition (clock w1) fr)) as (c' & Hf & _ & ? & ? & ? & _).
    rewrite Hty in Hf. eauto. }
  split.
  { simpl. rewrite <- Hty at 1. rewrite countConditions_SetStatusCondition, Hty.
    f_equal. f_equal.
    unfold ReconcileResource_body in Hbody.
    destruct (GetSecret _ w) as [got w0].
    repeat case_match; by simplify_eq. }
  intros res e ->.
  apply ReconcileResource_body_returns in Hbody.
  rewrite Hst, Hre, Hme.
  destruct (err fr) as [cause|].
  - destruct Hbody as [? ?]. done.
  - destruct Hbody as (-> & -> & _). done.
Qed.

(** ** Credentials *)

(** The payload [validateCredentials] decodes. *)
Definition credentialsPayload (credentialsSecret : Secret.t) : bytes :=
  default EmptyString (Secret.Data credentialsSecret !! CredentialsSecretKey).

(** The payload does not parse as a JSON object, or the object lacks the
    username or the password. *)
Definition credentialsInvalid (credentialsSecret : Secret.t) : Prop :=
  match json_decode (credentialsPayload credentialsSecret) with
  | inl (AnyMap o) =>
      o !! UsernameCredentialsKey = None \/ o !! PasswordCredentialsKey = None
  | _ => True
  end.

Lemma validateCredentials_invalid credentialsSecret :
  credentialsInvalid credentialsSecret ->
  exists e, validateCredentials credentialsSecret = Some e.
Proof.
  unfold credentialsInvalid, validateCredentials, json_Unmarshal, credentialsPayload.
  destruct (json_decode _) as [[| | | | |o]|e]; simpl; eauto.
  rewrite (right_id_L ∅ (∪)). intros [->| Hp]; [eauto|].
  destruct (o !! UsernameCredentialsKey); [|eauto]. rewrite Hp. eauto.
Qed.

Lemma validateCredentials_valid credentialsSecret :
  validateCredentials credentialsSecret = None -> ~ credentialsInvalid credentialsSecret.
Proof.
  intros Hv Hi. apply validateCredentials_invalid in Hi as [e He]. congruence.
Qed.

(** C5. When the credentials secret was fetched and its payload does not
    parse as a JSON object, or lacks the username or the password,
    [ReconcileResource] returns the error of [validateCredentials] with an
    empty result, the condition it writes is Ready/False with reason
    SecretInvalid and the text of that error, and the catalog client is
    not called. *)
Theorem invalid_credentials_never_reach_the_catalog r b w credentialsSecret w1 :
  GetSecret (CFServiceBroker.Namespace b, CFServiceBroker.Credentials b) w
    = (inl credentialsSecret, w1) ->
  credentialsInvalid credentialsSecret ->
  exists e c b',
    validateCredentials credentialsSecret = Some e
    /\ ReconcileResource r b w
       = (Returns (Result_zero, Some e), b', emit (EvSetStatusCondition c) w1)
    /\ Condition.Type_ c = StatusConditionReady
    /\ Condition.Status c = ConditionFalse
    /\ Condition.Reason c = "SecretInvalid"
    /\ Condition.Message c = Error e
    /\ (exists c',
          FindStatusCondition (CFServiceBroker.Conditions (CFServiceBroker.Status b'))
                              StatusConditionReady = Some c'
          /\ Condition.Status c' = ConditionFalse
          /\ Condition.Reason c' = "SecretInvalid")
    /\ catalogCalls (trace (emit (EvSetStatusCondition c) w1)) = catalogCalls (trace w).
Proof.
  intros Hg Hinv. destruct (validateCredentials_invalid _ Hinv) as [e He].
  unfold ReconcileResource, ReconcileResource_body. simpl. rewrite Hg, He. simpl.
  eexists e, _, _. split; [done|]. split; [reflexivity|].
  do 4 (split; [done|]). split.
  - match goal with
    | |- context [SetStatusCondition ?now ?cs ?c] =>
        destruct (FindStatusCondition_SetStatusCondition now cs c)
          as (c' & Hf & _ & ? & ? & _)
    end.
    eauto.
  - apply GetSecret_requestsOnly in Hg as [Hg _].
    apply requestsOnly_catalogCalls in Hg. simpl.
    unfold catalogCalls in *. rewrite omap_app. simpl. by rewrite app_nil_r.
Qed.

(** C6. When the fetch of the credentials secret fails, the condition
    written is Ready/False with reason CredentialsSecretNotAvailable; if
    the failure is not-found, [ReconcileResource] returns a result that
    asks for a new attempt after 2 seconds, and a [nil] error; any other
    failure is returned to the caller as it is, with an empty result. *)
Theorem missing_secret_is_retried_other_failures_surface r b w e w1 :
  GetSecret (CFServiceBroker.Namespace b, CFServiceBroker.Credentials b) w
    = (inr e, w1) ->
  exists c b',
    ReconcileResource r b w
    = (Returns (if IsNotFound e
                then ({| Requeue := false; RequeueAfter := 2 * Second |}, None)
                else (Result_zero, Some e)),
       b', emit (EvSetStatusCondition c) w1)
    /\ Condition.Type_ c = StatusConditionReady
    /\ Condition.Status c = ConditionFalse
    /\ Condition.Reason c = "CredentialsSecretNotAvailable"
    /\ (exists c',
          FindStatusCondition (CFServiceBroker.Conditions (CFServiceBroker.Status b'))
                              StatusConditionReady = Some c'
          /\ Condition.Status c' = ConditionFalse
          /\ Condition.Reason c' = "CredentialsSecretNotAvailable").
Proof.
  intros Hg.
  unfold ReconcileResource, ReconcileResource_body. simpl. rewrite Hg.
  destruct (IsNotFound e); simpl.
  all: eexists _, _; split; [reflexivity|]; do 3 (split; [done|]).
  all: match goal with
    | |- context [SetStatusCondition ?now ?cs ?c] =>
        destruct (FindStatusCondition_SetStatusCondition now cs c)
          as (c' & Hf & _ & ? & ? & _)
    end; eauto.
Qed.

(** A secret that is not in the cluster is answered with not-found, unless
    the request itself fails. *)
Lemma GetSecret_absent key w :
  secrets w !! key = None -> head (faults w) = None \/ head (faults w) = Some None ->
  exists e w1, GetSecret key w = (inr e, w1) /\ IsNotFound e = true.
Proof.
  intros Hs Hf. unfold GetSecret, request.
  destruct (faults w) as [|[f|] rest]; simpl in *.
  - rewrite Hs. eauto.
  - destruct Hf; simplify_eq.
  - rewrite Hs. eauto.
Qed.

(** C8. An invocation that reaches Ready, that is, returns the empty
    result and no error, leaves on the broker an observed generation equal
    to the broker's generation and a credentials observed version equal to
    the resource version of the secret it fetched, and a Ready condition
    with status True and reason Ready. *)
Theorem ready_records_generation_and_secret_version r b w b' w' :
  ReconcileResource r b w = (Returns (Result_zero, None), b', w') ->
  exists credentialsSecret w1 c,
    GetSecret (CFServiceBroker.Namespace b, CFServiceBroker.Credentials b) w
      = (inl credentialsSecret, w1)
    /\ validateCredentials credentialsSecret = None
    /\ CFServiceBroker.Generation b' = CFServiceBroker.Generation b
    /\ CFServiceBroker.ObservedGeneration (CFServiceBroker.Status b')
       = CFServiceBroker.Generation b
    /\ CFServiceBroker.CredentialsObservedVersion (CFServiceBroker.Status b')
       = Secret.ResourceVersion credentialsSecret
    /\ FindStatusCondition (CFServiceBroker.Conditions (CFServiceBroker.Status b'))
                           StatusConditionReady = Some c
    /\ Condition.Status c = ConditionTrue
    /\ Condition.Reason c = "Ready"
    /\ Condition.ObservedGeneration c = CFServiceBroker.Generation b.
Proof.
  unfold ReconcileResource, ReconcileResource_body.
  destruct (GetSecret _ w) as [got w0] eqn:Hg.
  intros Hr. repeat case_match; simplify_eq.
  simpl in *.
  match goal with
  | |- context [SetStatusCondition ?now ?cs ?c] =>
      destruct (FindStatusCondition_SetStatusCondition now cs c)
        as (c' & Hf & _ & ? & ? & _ & ?)
  end.
  eexists _, _, c'. split; [reflexivity|]. split; [done|]. simpl. eauto 10.
Qed.

(** ** The documentation URL *)

(** C10. For a catalog service whose metadata holds, under
    [documentationUrl], a value that is not a string,
    [toSpecServiceOffering] panics with the message of the failed type
    assertion instead of returning an error; and whenever the API server
    answers the reads, [reconcileCatalogService] panics with it as well,
    having stored nothing. *)
Theorem toSpecServiceOffering_panics_on_a_documentationUrl_that_is_no_string
    catalogService metadata u :
  Service.Metadata catalogService = Some metadata ->
  metadata !! "documentationUrl" = Some u ->
  (forall s, u <> AnyString s) ->
  let v := ("interface conversion: interface {} is "
            ++ dynamic_type_name u ++ ", not string")%string in
  toSpecServiceOffering catalogService = Panics v
  /\ forall cfServiceBroker w,
       faults w = [] ->
       exists w1,
         reconcileCatalogService cfServiceBroker catalogService w = (Panics v, w1)
         /\ sameObjects w w1.
Proof.
  intros Hmd Hu Hns v.
  assert (toSpecServiceOffering catalogService = Panics v) as Hp.
  { unfold toSpecServiceOffering. rewrite Hmd, Hu.
    destruct u; simpl; try done. by destruct (Hns s). }
  split; [done|].
  intros b w Hf.
  unfold reconcileCatalogService, CreateOrPatch, Get, mutate, request,
    serviceOfferingMutateFn.
  rewrite Hf, Hp. simpl.
  destruct (offerings w !! _); simpl; eexists; (split; [reflexivity|done]).
Qed.

(** ** Secrets and the brokers that use them *)




End ControllerProperties.

(** * The catalog walk *)

Section CatalogWalk.
Context `{Deps}.

(** The entries of a catalog in the order [reconcileCatalog] visits them:
    each service, followed by its plans. *)
Inductive Entry :=
| OfferingEntry (catalogService : Service.t)
| PlanEntry (catalogService : Service.t) (catalogPlan : Plan.t).

Definition serviceEntries (catalogService : Service.t) : list Entry :=
  OfferingEntry catalogService
  :: map (PlanEntry catalogService) (Service.Plans catalogService).

Definition entries (catalog : Catalog) : list Entry :=
  flat_map serviceEntries (Services catalog).

Definition withoutPlans (s : Service.t) : Service.t :=
  {| Service.ID := Service.ID s; Service.Name := Service.Name s;
     Service.Description := Service.Description s; Service.Tags := Service.Tags s;
     Service.Requires := Service.Requires s;
     Service.BrokerCatalogFeatures := Service.BrokerCatalogFeatures s;
     Service.Metadata := Service.Metadata s; Service.Plans := [] |}.

(** The offering of a service as [reconcileCatalogPlan] reads it once the
    offering was upserted: its name, its namespace and its broker
    label. *)
Definition upsertedOffering (b : CFServiceBroker.t) (s : Service.t)
  : CFServiceOffering.t :=
  {| CFServiceOffering.Name := NamespacedUUID (CFServiceBroker.Name b) (Service.ID s);
     CFServiceOffering.Namespace := CFServiceBroker.Namespace b;
     CFServiceOffering.Labels :=
       Some {[ RelServiceBrokerLabel := CFServiceBroker.Name b ]};
     CFServiceOffering.Spec := ServiceOffering.zero |}.

(** The upsert of one entry, with the error wrapped as the walk wraps
    it: the offering of a service is what [reconcileCatalogService] does
    for the service without its plans, a plan is one round of the loop
    over the plans. *)
Definition reconcileEntry (b : CFServiceBroker.t) (en : Entry)
  : Go (outcome (option error)) :=
  match en with
  | OfferingEntry s => reconcileCatalogService b (withoutPlans s)
  | PlanEntry s p => reconcileCatalogPlans (upsertedOffering b s) (Service.ID s) [p]
  end.

(** Upsert the entries in order and stop at the first that does not
    succeed. *)
Fixpoint walk (b : CFServiceBroker.t) (es : list Entry) : Go (outcome (option error)) :=
  fun w =>
  match es with
  | [] => (Returns None, w)
  | en :: rest =>
      match reconcileEntry b en w with
      | (Returns None, w1) => walk b rest w1
      | failed => failed
      end
  end.

Lemma walk_app b es1 es2 w :
  walk b (es1 ++ es2) w
  = match walk b es1 w with
    | (Returns None, w1) => walk b es2 w1
    | failed => failed
    end.
Proof.
  revert w. induction es1 as [|en es1 IH]; intros w; simpl; [done|].
  destruct (reconcileEntry b en w) as [[[e|]|v] w1]; try done.
Qed.

Lemma CreateOrPatch_ext {T : Type} `{ClientObject T} (obj : T) (f g : MutateFn) w :
  (forall x, f x = g x) -> CreateOrPatch obj f w = CreateOrPatch obj g w.
Proof.
  intros Hfg. unfold CreateOrPatch, mutate.
  destruct (Get _ w) as [[x|e] w1]; rewrite ?Hfg; done.
Qed.

(** [reconcileCatalogPlan] reads three things of the offering. *)
Lemma reconcileCatalogPlan_reads so1 so2 p w :
  CFServiceOffering.Name so1 = CFServiceOffering.Name so2 ->
  CFServiceOffering.Namespace so1 = CFServiceOffering.Namespace so2 ->
  label (CFServiceOffering.Labels so1) RelServiceBrokerLabel
  = label (CFServiceOffering.Labels so2) RelServiceBrokerLabel ->
  reconcileCatalogPlan so1 p w = reconcileCatalogPlan so2 p w.
Proof.
  intros Hn Hns Hl. unfold reconcileCatalogPlan.
  assert (servicePlanObject so1 p = servicePlanObject so2 p) as ->
    by (unfold servicePlanObject; by rewrite Hns, Hl).
  rewrite (CreateOrPatch_ext _ (servicePlanMutateFn so1 p) (servicePlanMutateFn so2 p));
    [done|].
  intros x. unfold servicePlanMutateFn. by rewrite Hn, Hl.
Qed.

Lemma reconcileCatalogPlans_walk b s so ps w :
  CFServiceOffering.Name so = NamespacedUUID (CFServiceBroker.Name b) (Service.ID s) ->
  CFServiceOffering.Namespace so = CFServiceBroker.Namespace b ->
  label (CFServiceOffering.Labels so) RelServiceBrokerLabel = CFServiceBroker.Name b ->
  reconcileCatalogPlans so (Service.ID s) ps w = walk b (map (PlanEntry s) ps) w.
Proof.
  intros Hn Hns Hl. revert w. induction ps as [|p ps IH]; intros w; simpl; [done|].
  assert (reconcileCatalogPlan so p w
          = reconcileCatalogPlan (upsertedOffering b s) p w) as ->.
  { apply reconcileCatalogPlan_reads; [done|done|].
    rewrite Hl. unfold label. simpl. by rewrite lookup_singleton_eq. }
  destruct (reconcileCatalogPlan (upsertedOffering b s) p w) as [[[e|]|v] w1];
    first [done | apply IH].
Qed.

Lemma label_setLabel k v labels : label (setLabel k v labels) k = v.
Proof. unfold label, setLabel. simpl. by rewrite lookup_insert_eq. Qed.

Lemma reconcileCatalogService_walk b s w :
  reconcileCatalogService b s w = walk b (serviceEntries s) w.
Proof.
  unfold serviceEntries. simpl. unfold reconcileCatalogService.
  change (serviceOfferingObject b (withoutPlans s)) with (serviceOfferingObject b s).
  change (serviceOfferingMutateFn b (withoutPlans s)) with (serviceOfferingMutateFn b s).
  destruct (CreateOrPatch _ _ w) as [[[[so r] [e|]]|v] w1] eqn:Hc; try done.
  simpl.
  apply CreateOrPatch_succeeded in Hc as (Hf & Hk & _).
  unfold serviceOfferingMutateFn in Hf.
  destruct (toSpecServiceOffering s) as [[spec e]|v]; [|done].
  injection Hf as Hso He. subst e.
  injection Hk as Hns Hn.
  apply reconcileCatalogPlans_walk; try done.
  rewrite <- Hso. simpl. apply label_setLabel.
Qed.

(** The nested loops of [reconcileCatalog] are the walk over the
    entries. *)
Lemma reconcileCatalog_walk b catalog w :
  reconcileCatalog b catalog w = walk b (entries catalog) w.
Proof.
  unfold reconcileCatalog, entries. revert w.
  induction (Services catalog) as [|s ss IH]; intros w; [done|].
  change (flat_map serviceEntries (s :: ss))
    with (serviceEntries s ++ flat_map serviceEntries ss).
  rewrite walk_app, <- reconcileCatalogService_walk. cbn [reconcileCatalogServices].
  destruct (reconcileCatalogService b s w) as [[[e|]|v] w1]; try done.
Qed.

(** ** A failed upsert *)

(** An entry whose upsert does not succeed has stored nothing. *)
Lemma reconcileEntry_not_succeeded b en w out w' :
  reconcileEntry b en w = (out, w') -> out <> Returns None -> sameObjects w w'.
Proof.
  destruct en as [s|s p]; simpl.
  - unfold reconcileCatalogService.
    destruct (CreateOrPatch _ _ w) as [[[[so r] [e|]]|v] w1] eqn:Hc;
      intros Hr Hout; simpl in Hr; simplify_eq; try done.
    all: apply (CreateOrPatch_failed _ _ _ _ _ Hc); by intros.
  - unfold reconcileCatalogPlan.
    destruct (CreateOrPatch _ _ w) as [[[[sp r] [e|]]|v] w1] eqn:Hc;
      intros Hr Hout; simpl in Hr; simplify_eq; try done.
    all: apply (CreateOrPatch_failed _ _ _ _ _ Hc); by intros.
Qed.

(** C2. When the walk has upserted the entries [pre] of the catalog and
    the upsert of the next entry fails with [e], [reconcileCatalog]
    returns [e] in the world that upsert left, whatever entries follow;
    all offerings and plans are stored as the earlier upserts left them;
    and [ReconcileResource] returns the error with the message
    "failed to reconcile catalog: " followed by the text of [e], doing
    nothing after the failed upsert but writing the condition. *)
Theorem upsert_failure_ends_the_walk_and_keeps_what_was_stored
    r b w0 credentialsSecret w catalog pre en post w1 e w2 :
  let b2 := setCredentialsObservedVersion (Secret.ResourceVersion credentialsSecret)
              (setObservedGeneration (CFServiceBroker.Generation b) b) in
  let w' := emit (EvGetCatalog (CFServiceBroker.Name b)) w in
  GetSecret (CFServiceBroker.Namespace b, CFServiceBroker.Credentials b) w0
    = (inl credentialsSecret, w) ->
  validateCredentials credentialsSecret = None ->
  GetCatalog (catalogClient r) b2 = (Some catalog, None) ->
  entries catalog = pre ++ en :: post ->
  walk b2 pre w' = (Returns None, w1) ->
  reconcileEntry b2 en w1 = (Returns (Some e), w2) ->
  reconcileCatalog b2 catalog w' = (Returns (Some e), w2)
  /\ sameObjects w1 w2
  /\ exists c b',
       ReconcileResource r b w0
       = (Returns (Result_zero,
                   Some (ErrorString ("failed to reconcile catalog: " ++ Error e)%string)),
          b', emit (EvSetStatusCondition c) w2)
       /\ Condition.Status c = ConditionFalse
       /\ Condition.Message c = Error e
       /\ offerings (emit (EvSetStatusCondition c) w2) = offerings w1
       /\ plans (emit (EvSetStatusCondition c) w2) = plans w1.
Proof.
  intros b2 w' Hg Hv Hcat Hen Hpre Hfail.
  assert (reconcileCatalog b2 catalog w' = (Returns (Some e), w2)) as Hrun.
  { rewrite reconcileCatalog_walk, Hen, walk_app, Hpre. simpl. by rewrite Hfail. }
  assert (sameObjects w1 w2) as Hsame
    by (eapply reconcileEntry_not_succeeded; [exact Hfail | done]).
  split; [done|]. split; [done|].
  unfold ReconcileResource, ReconcileResource_body. simpl.
  rewrite Hg, Hv. fold b2. rewrite Hcat. fold w'. rewrite Hrun. simpl.
  eexists _, _. split; [reflexivity|]. destruct Hsame. done.
Qed.

(** ** The plan that is stored *)


(** ** The names of the objects *)

(** The IDs a catalog lists: those of its services, and those of the
    plans of its services. *)
Definition serviceIDs (catalog : Catalog) : list string :=
  map Service.ID (Services catalog).

Definition planIDs (catalog : Catalog) : list string :=
  flat_map (fun s => map Plan.ID (Service.Plans s)) (Services catalog).



(** The key the upsert of an entry goes to. *)
Definition entryKey (b : CFServiceBroker.t) (en : Entry) : Kind * NamespacedName :=
  match en with
  | OfferingEntry s =>
      (KCFServiceOffering, ObjectKeyFromObject (serviceOfferingObject b s))
  | PlanEntry s p =>
      (KCFServicePlan, ObjectKeyFromObject (servicePlanObject (upsertedOffering b s) p))
  end.

Lemma label_upsertedOffering b s :
  label (CFServiceOffering.Labels (upsertedOffering b s)) RelServiceBrokerLabel
  = CFServiceBroker.Name b.
Proof. unfold label. simpl. by rewrite lookup_singleton_eq. Qed.

Lemma entryKey_plan b s p :
  entryKey b (PlanEntry s p)
  = (KCFServicePlan,
     (CFServiceBroker.Namespace b,
      NamespacedUUID (CFServiceBroker.Name b) (Plan.ID p))).
Proof. simpl. unfold label. simpl. by rewrite lookup_singleton_eq. Qed.




Lemma elem_of_entries catalog en :
  en ∈ entries catalog ->
  match en with
  | OfferingEntry s => s ∈ Services catalog
  | PlanEntry s p => s ∈ Services catalog /\ p ∈ Service.Plans s
  end.
Proof.
  unfold entries. rewrite list_elem_of_In, in_flat_map.
  intros (s & Hs & Hen). apply list_elem_of_In in Hs.
  destruct Hen as [<-|Hen]; [done|].
  apply in_map_iff in Hen as (p & <- & Hp). by apply list_elem_of_In in Hp.
Qed.

Lemma entries_offering catalog s :
  s ∈ Services catalog -> OfferingEntry s ∈ entries catalog.
Proof.
  intros Hs. unfold entries. apply list_elem_of_In, in_flat_map.
  exists s. split; [by apply list_elem_of_In|]. by left.
Qed.

Lemma entries_plan catalog s p :
  s ∈ Services catalog -> p ∈ Service.Plans s -> PlanEntry s p ∈ entries catalog.
Proof.
  intros Hs Hp. unfold entries. apply list_elem_of_In, in_flat_map.
  exists s. split; [by apply list_elem_of_In|]. right.
  apply in_map_iff. exists p. split; [done|]. by apply list_elem_of_In.
Qed.

Lemma serviceIDs_elem catalog s : s ∈ Services catalog -> Service.ID s ∈ serviceIDs catalog.
Proof.
  intros Hs. apply list_elem_of_In, in_map_iff. exists s.
  split; [done|]. by apply list_elem_of_In.
Qed.

Lemma planIDs_elem catalog s p :
  s ∈ Services catalog -> p ∈ Service.Plans s -> Plan.ID p ∈ planIDs catalog.
Proof.
  intros Hs Hp. apply list_elem_of_In, in_flat_map. exists s.
  split; [by apply list_elem_of_In|]. apply in_map_iff. exists p.
  split; [done|]. by apply list_elem_of_In.
Qed.











End CatalogWalk.

(** * Running the walk twice *)

Section UpsertAlgebra.
Context {T : Type} `{ClientObjectLaws T}.

(** A later upsert of the same object absorbs an earlier one, when its
    mutation absorbs the earlier mutation. *)
Lemma upsert_absorbs (obj : T) (f g : MutateFn) m :
  (forall x, applied f (applied g x) = applied f x) ->
  upsert obj f (upsert obj g m) = upsert obj f m.
Proof.
  intros Hfg. unfold upsert.
  rewrite lookup_insert_eq, insert_insert_eq. simpl. by rewrite Hfg.
Qed.

(** Upserts under different keys commute. *)
Lemma upsert_commutes (obj obj' : T) (f g : MutateFn) m :
  ObjectKeyFromObject obj <> ObjectKeyFromObject obj' ->
  upsert obj f (upsert obj' g m) = upsert obj' g (upsert obj f m).
Proof.
  intros Hne. unfold upsert.
  rewrite !lookup_insert_ne by done. by rewrite insert_insert_ne.
Qed.



Lemma upsert_present (obj : T) (f : MutateFn) m k :
  is_Some (m !! k) -> is_Some (upsert obj f m !! k).
Proof.
  unfold upsert. intros Hk.
  destruct (decide (ObjectKeyFromObject obj = k)) as [->|Hne].
  - by rewrite lookup_insert_eq.
  - by rewrite lookup_insert_ne.
Qed.

Lemma upsert_present_eq (obj : T) (f : MutateFn) m :
  is_Some (upsert obj f m !! ObjectKeyFromObject obj).
Proof. unfold upsert. by rewrite lookup_insert_eq. Qed.
End UpsertAlgebra.

Section Idempotence.
Context `{Deps}.

(** The offerings and the plans of the cluster. *)
Definition stores (w : World)
  : gmap NamespacedName CFServiceOffering.t * gmap NamespacedName CFServicePlan.t :=
  (offerings w, plans w).

(** What the successful upsert of an entry makes of the stores, and the
    requests it takes. *)
Definition applyEntry (b : CFServiceBroker.t) (en : Entry)
    (st : gmap NamespacedName CFServiceOffering.t * gmap NamespacedName CFServicePlan.t)
  : gmap NamespacedName CFServiceOffering.t * gmap NamespacedName CFServicePlan.t :=
  match en with
  | OfferingEntry s =>
      (upsert (serviceOfferingObject b s) (serviceOfferingMutateFn b s) st.1, st.2)
  | PlanEntry s p =>
      (st.1, upsert (servicePlanObject (upsertedOffering b s) p)
                    (servicePlanMutateFn (upsertedOffering b s) p) st.2)
  end.

Definition entryEvents (b : CFServiceBroker.t) (en : Entry)
    (st : gmap NamespacedName CFServiceOffering.t * gmap NamespacedName CFServicePlan.t)
  : list Event :=
  match en with
  | OfferingEntry s =>
      upsertEvents (serviceOfferingObject b s) (serviceOfferingMutateFn b s) st.1
  | PlanEntry s p =>
      upsertEvents (servicePlanObject (upsertedOffering b s) p)
                   (servicePlanMutateFn (upsertedOffering b s) p) st.2
  end.

Fixpoint applyEntries (b : CFServiceBroker.t) (es : list Entry)
    (st : gmap NamespacedName CFServiceOffering.t * gmap NamespacedName CFServicePlan.t)
  : gmap NamespacedName CFServiceOffering.t * gmap NamespacedName CFServicePlan.t :=
  match es with
  | [] => st
  | en :: rest => applyEntries b rest (applyEntry b en st)
  end.

Fixpoint walkEvents (b : CFServiceBroker.t) (es : list Entry)
    (st : gmap NamespacedName CFServiceOffering.t * gmap NamespacedName CFServicePlan.t)
  : list Event :=
  match es with
  | [] => []
  | en :: rest => entryEvents b en st ++ walkEvents b rest (applyEntry b en st)
  end.

(** The mutation of the entry returns no error. *)
Definition entryOK (en : Entry) : Prop :=
  match en with
  | OfferingEntry s => exists spec, toSpecServiceOffering s = Returns (spec, None)
  | PlanEntry s p => exists raw, json_Marshal (Plan.Metadata p) = inl raw
  end.

Lemma reconcileEntry_succeeded b en w w' :
  reconcileEntry b en w = (Returns None, w') ->
  stores w' = applyEntry b en (stores w)
  /\ trace w' = trace w ++ entryEvents b en (stores w)
  /\ entryOK en.
Proof.
  destruct en as [s|s p]; simpl.
  - unfold reconcileCatalogService.
    change (serviceOfferingObject b (withoutPlans s)) with (serviceOfferingObject b s).
    change (serviceOfferingMutateFn b (withoutPlans s)) with (serviceOfferingMutateFn b s).
    destruct (CreateOrPatch _ _ w) as [[[[so r] [e|]]|v] w1] eqn:Hc;
      intros Hr; simpl in Hr; simplify_eq.
    pose proof (CreateOrPatch_offering_plans _ _ _ _ _ Hc) as Hp.
    pose proof (CreateOrPatch_succeeded _ _ _ _ _ _ Hc) as (Hf & _).
    apply CreateOrPatch_succeeded_upsert in Hc as (_ & Hs & Ht).
    unfold stores. simpl in *. rewrite Hs, Hp, Ht. repeat split.
    unfold serviceOfferingMutateFn in Hf.
    destruct (toSpecServiceOffering s) as [[spec e]|v]; [|done].
    injection Hf as _ ->. eauto.
  - unfold reconcileCatalogPlan.
    destruct (CreateOrPatch _ _ w) as [[[[sp r] [e|]]|v] w1] eqn:Hc;
      intros Hr; simpl in Hr; simplify_eq.
    pose proof (CreateOrPatch_plan_offerings _ _ _ _ _ Hc) as Hp.
    pose proof (CreateOrPatch_succeeded _ _ _ _ _ _ Hc) as (Hf & _).
    apply CreateOrPatch_succeeded_upsert in Hc as (_ & Hs & Ht).
    unfold stores. simpl in *. rewrite Hs, Hp, Ht. repeat split.
    unfold servicePlanMutateFn in Hf.
    destruct (json_Marshal (Plan.Metadata p)) as [raw|e]; [|done]. eauto.
Qed.

Lemma walk_succeeded b es w w' :
  walk b es w = (Returns None, w') ->
  stores w' = applyEntries b es (stores w)
  /\ trace w' = trace w ++ walkEvents b es (stores w)
  /\ Forall entryOK es.
Proof.
  revert w. induction es as [|en es IH]; intros w; simpl.
  - intros [= <-]. by rewrite app_nil_r.
  - destruct (reconcileEntry b en w) as [[[e|]|v] w1] eqn:Hen; try done.
    apply reconcileEntry_succeeded in Hen as (Hs & Ht & Hok).
    intros Hw. apply IH in Hw as (Hs' & Ht' & Hok').
    rewrite Hs', Ht', Hs, Ht, <- app_assoc. split; [done|]. split; [done|].
    by constructor.
Qed.

(** ** The algebra of the upserts *)

Lemma setLabel_setLabel k v v' labels :
  setLabel k v (setLabel k v' labels) = setLabel k v labels.
Proof. unfold setLabel. simpl. by rewrite insert_insert_eq. Qed.

Lemma setLabels_absorb k1 v1 k2 v2 v2' labels :
  setLabel k2 v2 (setLabel k1 v1 (setLabel k2 v2' (setLabel k1 v1 labels)))
  = setLabel k2 v2 (setLabel k1 v1 labels).
Proof.
  unfold setLabel. simpl. f_equal. apply map_eq. intros k.
  rewrite !lookup_insert. repeat case_decide; congruence.
Qed.

Lemma applyEntry_absorbs b en en' st :
  entryOK en -> entryOK en' -> entryKey b en = entryKey b en' ->
  applyEntry b en (applyEntry b en' st) = applyEntry b en st.
Proof.
  destruct en as [s|s p], en' as [s'|s' p']; try done.
  - intros [spec Hs] [spec' Hs'] Hk. injection Hk as Hn.
    assert (serviceOfferingObject b s' = serviceOfferingObject b s) as Ho
      by (unfold serviceOfferingObject; by rewrite Hn).
    unfold applyEntry. simpl. rewrite Ho. f_equal.
    apply upsert_absorbs. intros x.
    unfold applied, serviceOfferingMutateFn. rewrite Hs, Hs'. simpl.
    by rewrite setLabel_setLabel.
  - intros [raw Hp] [raw' Hp'] Hk. injection Hk as Hn.
    assert (servicePlanObject (upsertedOffering b s') p'
            = servicePlanObject (upsertedOffering b s) p) as Ho
      by (unfold servicePlanObject; simpl in *; by rewrite Hn).
    unfold applyEntry. simpl. rewrite Ho. f_equal.
    apply upsert_absorbs. intros x.
    unfold applied, servicePlanMutateFn. rewrite Hp, Hp'. simpl.
    by rewrite setLabels_absorb.
Qed.

Lemma applyEntry_commutes b en en' st :
  entryKey b en <> entryKey b en' ->
  applyEntry b en (applyEntry b en' st) = applyEntry b en' (applyEntry b en st).
Proof.
  destruct en as [s|s p], en' as [s'|s' p']; try done; intros Hk;
    unfold applyEntry; simpl; f_equal; apply upsert_commutes;
    intros Heq; apply Hk; unfold entryKey; f_equal; exact Heq.
Qed.

(** The walk absorbs an upsert made before it on a key it visits. *)
Lemma applyEntries_absorbs b en es st :
  entryOK en -> Forall entryOK es -> entryKey b en ∈ map (entryKey b) es ->
  applyEntries b es (applyEntry b en st) = applyEntries b es st.
Proof.
  intros Hok Hes. revert st. induction Hes as [|e1 es Hok1 Hes IH]; intros st; simpl.
  - intros Hin. by apply elem_of_nil in Hin.
  - intros Hin. destruct (decide (entryKey b e1 = entryKey b en)) as [Heq|Hne].
    + by rewrite applyEntry_absorbs.
    + rewrite applyEntry_commutes by done. apply IH.
      apply elem_of_cons in Hin as [Hin|Hin]; [congruence|done].
Qed.

(** The walk commutes with an upsert on a key it does not visit. *)
Lemma applyEntries_commutes b en es st :
  entryKey b en ∉ map (entryKey b) es ->
  applyEntries b es (applyEntry b en st) = applyEntry b en (applyEntries b es st).
Proof.
  revert st. induction es as [|e1 es IH]; intros st; simpl; [done|].
  intros Hnin. apply not_elem_of_cons in Hnin as [Hne Hnin].
  rewrite applyEntry_commutes by done. by apply IH.
Qed.

(** Walking twice stores what walking once stores. *)
Lemma applyEntries_idempotent b es st :
  Forall entryOK es ->
  applyEntries b es (applyEntries b es st) = applyEntries b es st.
Proof.
  intros Hes. revert st. induction Hes as [|en es Hok Hes IH]; intros st; simpl; [done|].
  destruct (decide (entryKey b en ∈ map (entryKey b) es)) as [Hin|Hnin].
  - rewrite applyEntries_absorbs by done. apply IH.
  - rewrite (applyEntries_commutes b en es st) by done.
    rewrite applyEntry_absorbs by done.
    rewrite (applyEntries_commutes b en es (applyEntries b es st)) by done.
    by rewrite IH.
Qed.

(** ** The requests of a second walk *)

(** The key of the entry is taken. *)
Definition present (b : CFServiceBroker.t) (en : Entry)
    (st : gmap NamespacedName CFServiceOffering.t * gmap NamespacedName CFServicePlan.t)
  : Prop :=
  match en with
  | OfferingEntry s => is_Some (st.1 !! (entryKey b en).2)
  | PlanEntry s p => is_Some (st.2 !! (entryKey b en).2)
  end.

Lemma applyEntry_present b en en0 st :
  present b en0 st -> present b en0 (applyEntry b en st).
Proof.
  destruct en as [s|s p], en0 as [s0|s0 p0]; unfold present, applyEntry;
    simpl; try done; apply upsert_present.
Qed.

Lemma applyEntry_present_eq b en st : present b en (applyEntry b en st).
Proof.
  destruct en as [s|s p]; unfold present, applyEntry; apply upsert_present_eq.
Qed.

Lemma applyEntries_present b es en0 st :
  present b en0 st -> present b en0 (applyEntries b es st).
Proof.
  revert st. induction es as [|en es IH]; intros st Hp; simpl; [done|].
  by apply IH, applyEntry_present.
Qed.

Lemma applyEntries_present_all b es st :
  Forall (fun en => present b en (applyEntries b es st)) es.
Proof.
  revert st. induction es as [|en es IH]; intros st; simpl; constructor.
  - apply applyEntries_present, applyEntry_present_eq.
  - apply IH.
Qed.







(** ** Distinct names *)

Definition offeringNames (b : CFServiceBroker.t) (catalog : Catalog) : list string :=
  map (NamespacedUUID (CFServiceBroker.Name b)) (serviceIDs catalog).

Definition planNames (b : CFServiceBroker.t) (catalog : Catalog) : list string :=
  map (NamespacedUUID (CFServiceBroker.Name b)) (planIDs catalog).

Definition offeringNameOf (b : CFServiceBroker.t) (en : Entry) : option string :=
  match en with
  | OfferingEntry s => Some (NamespacedUUID (CFServiceBroker.Name b) (Service.ID s))
  | PlanEntry _ _ => None
  end.

Definition planNameOf (b : CFServiceBroker.t) (en : Entry) : option string :=
  match en with
  | OfferingEntry _ => None
  | PlanEntry _ p => Some (NamespacedUUID (CFServiceBroker.Name b) (Plan.ID p))
  end.

Lemma omap_offeringNameOf_plans b s ps :
  omap (offeringNameOf b) (map (PlanEntry s) ps) = [].
Proof. by induction ps. Qed.

Lemma omap_planNameOf_plans b s ps :
  omap (planNameOf b) (map (PlanEntry s) ps)
  = map (NamespacedUUID (CFServiceBroker.Name b)) (map Plan.ID ps).
Proof. induction ps as [|p ps IH]; simpl; [done|]. f_equal. exact IH. Qed.

Lemma omap_offeringNameOf_entries b catalog :
  omap (offeringNameOf b) (entries catalog) = offeringNames b catalog.
Proof.
  unfold entries, offeringNames, serviceIDs.
  induction (Services catalog) as [|s ss IH]; [done|].
  change (flat_map serviceEntries (s :: ss))
    with (serviceEntries s ++ flat_map serviceEntries ss).
  rewrite omap_app, IH. unfold serviceEntries. simpl.
  by rewrite omap_offeringNameOf_plans.
Qed.

Lemma omap_planNameOf_entries b catalog :
  omap (planNameOf b) (entries catalog) = planNames b catalog.
Proof.
  unfold entries, planNames, planIDs.
  induction (Services catalog) as [|s ss IH]; [done|].
  change (flat_map serviceEntries (s :: ss))
    with (serviceEntries s ++ flat_map serviceEntries ss).
  rewrite omap_app, IH. unfold serviceEntries. simpl.
  by rewrite omap_planNameOf_plans, map_app.
Qed.

Lemma NoDup_entryKeys_of_names b es :
  NoDup (omap (offeringNameOf b) es) -> NoDup (omap (planNameOf b) es) ->
  NoDup (map (entryKey b) es).
Proof.
  induction es as [|en es IH]; simpl; [constructor|].
  intros Ho Hp. destruct en as [s|s p]; simpl in Ho, Hp.
  - apply NoDup_cons in Ho as [Hnin Ho]. apply NoDup_cons. split; [|by apply IH].
    intros Hin. apply Hnin.
    apply list_elem_of_In, in_map_iff in Hin as (en & Hk & Hin).
    apply list_elem_of_omap. exists en. split; [by apply list_elem_of_In|].
    destruct en as [s'|s' p']; [|discriminate Hk].
    injection Hk as Hn. simpl. by rewrite Hn.
  - apply NoDup_cons in Hp as [Hnin Hp]. apply NoDup_cons. split; [|by apply IH].
    intros Hin. apply Hnin.
    apply list_elem_of_In, in_map_iff in Hin as (en & Hk & Hin).
    apply list_elem_of_omap. exists en. split; [by apply list_elem_of_In|].
    destruct en as [s'|s' p']; [discriminate Hk|].
    rewrite !entryKey_plan in Hk. injection Hk as Hn. simpl. by rewrite Hn.
Qed.

Lemma NoDup_entryKeys b catalog :
  NoDup (offeringNames b catalog) -> NoDup (planNames b catalog) ->
  NoDup (map (entryKey b) (entries catalog)).
Proof.
  intros Ho Hp. apply NoDup_entryKeys_of_names.
  - by rewrite omap_offeringNameOf_entries.
  - by rewrite omap_planNameOf_entries.
Qed.


(** ** Runs that meet no failure *)

Lemma serviceOfferingMutateFn_succeeds b s :
  entryOK (OfferingEntry s) -> succeeds (serviceOfferingMutateFn b s).
Proof.
  intros [spec Hs] x. unfold serviceOfferingMutateFn. rewrite Hs. eauto.
Qed.

Lemma servicePlanMutateFn_succeeds so s p :
  entryOK (PlanEntry s p) -> succeeds (servicePlanMutateFn so p).
Proof.
  intros [raw Hp] x. unfold servicePlanMutateFn. rewrite Hp. eauto.
Qed.

(** With no failure in store, every object stored under its own key and
    mutations that return no error, the walk succeeds and leaves a world
    of the same kind. *)
Lemma walk_fault_free b es w :
  faults w = [] -> wellKeyed (offerings w) -> wellKeyed (plans w) ->
  Forall entryOK es ->
  exists w',
    walk b es w = (Returns None, w')
    /\ faults w' = [] /\ wellKeyed (offerings w') /\ wellKeyed (plans w').
Proof.
  intros Hf Ho Hp Hok. revert w Hf Ho Hp.
  induction Hok as [|en es Hen Hok IH]; intros w Hf Ho Hp; simpl; [eauto|].
  assert (exists w1, reconcileEntry b en w = (Returns None, w1)
                     /\ faults w1 = [] /\ wellKeyed (offerings w1)
                     /\ wellKeyed (plans w1)) as (w1 & -> & Hf1 & Ho1 & Hp1).
  { destruct en as [s|s p]; simpl.
    - unfold reconcileCatalogService.
      change (serviceOfferingObject b (withoutPlans s)) with (serviceOfferingObject b s).
      change (serviceOfferingMutateFn b (withoutPlans s))
        with (serviceOfferingMutateFn b s).
      pose proof (serviceOfferingMutateFn_succeeds b s Hen) as Hs.
      destruct (CreateOrPatch_fault_free (serviceOfferingObject b s) _ w Hf Ho Hs)
        as (r & w1 & Hc & Hst & Hf1 & _).
      rewrite Hc. simpl. exists w1. split; [done|]. split; [done|]. split.
      + change (offerings w1) with (stored (T:=CFServiceOffering.t) w1).
        rewrite Hst. by apply wellKeyed_upsert.
      + by rewrite (CreateOrPatch_offering_plans _ _ _ _ _ Hc).
    - unfold reconcileCatalogPlan.
      pose proof (servicePlanMutateFn_succeeds (upsertedOffering b s) s p Hen) as Hs.
      destruct (CreateOrPatch_fault_free
                  (servicePlanObject (upsertedOffering b s) p) _ w Hf Hp Hs)
        as (r & w1 & Hc & Hst & Hf1 & _).
      rewrite Hc. simpl. exists w1. split; [done|]. split; [done|]. split.
      + by rewrite (CreateOrPatch_plan_offerings _ _ _ _ _ Hc).
      + change (plans w1) with (stored (T:=CFServicePlan.t) w1).
        rewrite Hst. by apply wellKeyed_upsert. }
  by apply IH.
Qed.

(** So two runs in a row succeed whenever the first meets a cluster that
    answers every request, and a catalog whose metadata can be read. *)
Lemma reconcileCatalog_twice_fault_free b catalog w :
  faults w = [] -> wellKeyed (offerings w) -> wellKeyed (plans w) ->
  Forall entryOK (entries catalog) ->
  exists w1 w2,
    reconcileCatalog b catalog w = (Returns None, w1)
    /\ reconcileCatalog b catalog w1 = (Returns None, w2).
Proof.
  intros Hf Ho Hp Hok. rewrite reconcileCatalog_walk.
  destruct (walk_fault_free b _ w Hf Ho Hp Hok) as (w1 & -> & Hf1 & Ho1 & Hp1).
  exists w1. rewrite reconcileCatalog_walk.
  destruct (walk_fault_free b _ w1 Hf1 Ho1 Hp1 Hok) as (w2 & -> & _).
  eauto.
Qed.

(** ** Idempotence without the proviso *)


End Idempotence.

(** * More of the reconciler *)

Section WalkAndStore.
Context `{Deps}.

(** ** What a walk leaves in the store *)

(** An entry either leaves the offerings and plans alone, or it succeeds
    and upserts its object. *)
Lemma reconcileEntry_step b en w out w' :
  reconcileEntry b en w = (out, w') ->
  (out <> Returns None /\ stores w' = stores w)
  \/ (out = Returns None /\ stores w' = applyEntry b en (stores w) /\ entryOK en).
Proof.
  intros Hr.
  assert (out = Returns None \/ out <> Returns None) as [->|Hne]
    by (destruct out as [[e|]|v]; [by right|by left|by right]).
  - right. apply reconcileEntry_succeeded in Hr as (? & _ & ?). done.
  - left. split; [done|].
    destruct (reconcileEntry_not_succeeded _ _ _ _ _ Hr Hne) as [Ho Hp].
    unfold stores. by rewrite Ho, Hp.
Qed.

Lemma applyEntries_app b es1 es2 st :
  applyEntries b (es1 ++ es2) st = applyEntries b es2 (applyEntries b es1 st).
Proof. revert st. induction es1 as [|en es1 IH]; intros st; simpl; [done|]. by rewrite IH. Qed.

(** A walk stores what the entries before the first failure upsert, in
    their order, and nothing else. *)
Lemma walk_prefix b es w out w' :
  walk b es w = (out, w') ->
  exists pre post,
    es = pre ++ post
    /\ stores w' = applyEntries b pre (stores w)
    /\ Forall entryOK pre
    /\ (out = Returns None -> post = [])
    /\ (out <> Returns None -> post <> []).
Proof.
  revert w. induction es as [|en es IH]; intros w; simpl.
  - intros [= <- <-]. exists [], []. by repeat split.
  - destruct (reconcileEntry b en w) as [r w1] eqn:Hen.
    destruct (reconcileEntry_step _ _ _ _ _ Hen) as [[Hne Hst]|(-> & Hst & Hok)].
    + intros Hw. assert (out = r /\ w' = w1) as [-> ->].
      { destruct r as [[e|]|v]; by simplify_eq. }
      exists [], (en :: es). by repeat split.
    + intros Hw. destruct (IH _ Hw) as (pre & post & -> & Hst' & Hpre & Hdone & Hfail).
      exists (en :: pre), post. split; [done|]. split; [by rewrite Hst', Hst|].
      split; [by constructor|]. done.
Qed.

(** ** A failed run and the run after it *)

(** X1. Partial progress converges: whatever a run of [reconcileCatalog]
    left behind (it may have failed or panicked anywhere in the walk), a run
    over the same catalog that then succeeds leaves exactly the offerings
    and plans that a successful run would have left had the first run
    never happened. *)
Theorem a_successful_run_after_a_failed_run_converges b catalog w out wf w1 w0 w2 :
  reconcileCatalog b catalog w = (out, wf) ->
  reconcileCatalog b catalog wf = (Returns None, w1) ->
  offerings w0 = offerings w -> plans w0 = plans w ->
  reconcileCatalog b catalog w0 = (Returns None, w2) ->
  offerings w1 = offerings w2 /\ plans w1 = plans w2.
Proof.
  rewrite !reconcileCatalog_walk. intros Hfirst Hnext Ho Hp Hclean.
  apply walk_prefix in Hfirst as (pre & post & Hes & Hwf & Hpre & _).
  apply walk_succeeded in Hnext as (Hw1 & _ & _).
  apply walk_succeeded in Hclean as (Hw2 & _ & _).
  assert (stores w1 = stores w2) as Heq.
  { rewrite Hw1, Hw2, Hwf, Hes, !applyEntries_app.
    rewrite applyEntries_idempotent by done.
    unfold stores. by rewrite Ho, Hp. }
  by injection Heq.
Qed.

(** ** The order of the catalog *)

Lemma applyEntries_permutation b es1 es2 st :
  es1 ≡ₚ es2 -> NoDup (map (entryKey b) es1) ->
  applyEntries b es1 st = applyEntries b es2 st.
Proof.
  intros Hp. revert st. induction Hp as [|en es1 es2 Hp IH|en en' es|es1 es2 es3 Hp1 IH1 Hp2 IH2];
    intros st Hnd; simpl.
  - done.
  - apply IH. by apply NoDup_cons in Hnd as [_ ?].
  - f_equal. apply applyEntry_commutes.
    simpl in Hnd. apply NoDup_cons in Hnd as [Hnin _].
    intros Heq. apply Hnin. rewrite Heq. by left.
  - rewrite IH1 by done. apply IH2. by rewrite <- Hp1.
Qed.

Lemma entries_permutation catalog catalog2 :
  Services catalog2 ≡ₚ Services catalog -> entries catalog2 ≡ₚ entries catalog.
Proof.
  unfold entries. intros Hp.
  induction Hp as [|s l1 l2 Hp IH|s s' l|l1 l2 l3 Hp1 IH1 Hp2 IH2]; simpl.
  - done.
  - by rewrite IH.
  - change (OfferingEntry s' :: ?a ++ OfferingEntry s :: ?b ++ ?c)
      with (serviceEntries s' ++ serviceEntries s ++ c).
    rewrite !(app_comm_cons _ _ (OfferingEntry _)).
    rewrite !app_assoc. f_equiv. apply Permutation_app_comm.
  - by etrans.
Qed.

(** X2. When no two services of the catalog derive the same offering name
    and no two plans the same plan name, the order in which the catalog
    lists its services does not matter: successful runs over the catalog
    and over a reordering of it, from the same offerings and plans, leave
    the same offerings and plans. *)
Theorem the_order_of_the_services_does_not_matter b catalog catalog2 w w' w2 w2' :
  Services catalog2 ≡ₚ Services catalog ->
  NoDup (offeringNames b catalog) -> NoDup (planNames b catalog) ->
  offerings w2 = offerings w -> plans w2 = plans w ->
  reconcileCatalog b catalog w = (Returns None, w') ->
  reconcileCatalog b catalog2 w2 = (Returns None, w2') ->
  offerings w2' = offerings w' /\ plans w2' = plans w'.
Proof.
  rewrite !reconcileCatalog_walk. intros Hperm Hno Hnp Ho Hp Hrun Hrun2.
  apply walk_succeeded in Hrun as (Hw' & _ & _).
  apply walk_succeeded in Hrun2 as (Hw2' & _ & _).
  assert (stores w2' = stores w') as Heq.
  { rewrite Hw', Hw2'.
    rewrite (applyEntries_permutation b (entries catalog) (entries catalog2)).
    - unfold stores. by rewrite Ho, Hp.
    - symmetry. by apply entries_permutation.
    - by apply NoDup_entryKeys. }
  by injection Heq.
Qed.
End WalkAndStore.

Section WhatAWalkTouches.
Context `{Deps}.

(** ** Objects the catalog does not name *)

Lemma applyEntry_other_offering b en st key :
  entryKey b en <> (KCFServiceOffering, key) -> (applyEntry b en st).1 !! key = st.1 !! key.
Proof.
  destruct en as [s|s p]; [|done].
  intros Hne. cbn [applyEntry fst]. unfold upsert. apply lookup_insert_ne.
  intros Heq. apply Hne. unfold entryKey. by rewrite Heq.
Qed.

Lemma applyEntry_other_plan b en st key :
  entryKey b en <> (KCFServicePlan, key) -> (applyEntry b en st).2 !! key = st.2 !! key.
Proof.
  destruct en as [s|s p]; [done|].
  intros Hne. cbn [applyEntry snd]. unfold upsert. apply lookup_insert_ne.
  intros Heq. apply Hne. unfold entryKey. by rewrite Heq.
Qed.

Lemma applyEntries_other_offering b es st key :
  Forall (fun en => entryKey b en <> (KCFServiceOffering, key)) es ->
  (applyEntries b es st).1 !! key = st.1 !! key.
Proof.
  intros Hes. revert st. induction Hes as [|en es Hen Hes IH]; intros st; simpl; [done|].
  by rewrite IH, applyEntry_other_offering.
Qed.

Lemma applyEntries_other_plan b es st key :
  Forall (fun en => entryKey b en <> (KCFServicePlan, key)) es ->
  (applyEntries b es st).2 !! key = st.2 !! key.
Proof.
  intros Hes. revert st. induction Hes as [|en es Hen Hes IH]; intros st; simpl; [done|].
  by rewrite IH, applyEntry_other_plan.
Qed.

(** X3. A run of [reconcileCatalog], however it ends, changes no secret
    and no broker, and leaves every offering and every plan as it was
    unless its namespace is the broker's and its name is the one derived
    from the broker's name and the ID of a service, respectively of a plan,
    of the catalog. *)
Theorem reconcileCatalog_touches_only_what_the_catalog_names b catalog w out w' :
  reconcileCatalog b catalog w = (out, w') ->
  secrets w' = secrets w /\ brokers w' = brokers w
  /\ (forall key,
        (forall id, id ∈ serviceIDs catalog ->
           key <> (CFServiceBroker.Namespace b,
                   NamespacedUUID (CFServiceBroker.Name b) id)) ->
        offerings w' !! key = offerings w !! key)
  /\ (forall key,
        (forall id, id ∈ planIDs catalog ->
           key <> (CFServiceBroker.Namespace b,
                   NamespacedUUID (CFServiceBroker.Name b) id)) ->
        plans w' !! key = plans w !! key).
Proof.
  intros Hrun.
  destruct (reconcileCatalog_requestsOnly _ _ _ _ _ Hrun) as (_ & Hs & Hb & _).
  rewrite reconcileCatalog_walk in Hrun.
  apply walk_prefix in Hrun as (pre & post & Hes & Hst & _).
  assert (offerings w' = (applyEntries b pre (stores w)).1) as Ho by (by rewrite <- Hst).
  assert (plans w' = (applyEntries b pre (stores w)).2) as Hp by (by rewrite <- Hst).
  split; [done|]. split; [done|]. split.
  - intros key Hkey. rewrite Ho. apply applyEntries_other_offering.
    apply Forall_forall. intros en Hen.
    assert (en ∈ entries catalog) as Hin by (rewrite Hes; set_solver).
    destruct en as [s|s p]; [|by rewrite entryKey_plan].
    apply elem_of_entries in Hin. intros [= Heq]. eapply Hkey; [|by rewrite <- Heq].
    by apply serviceIDs_elem.
  - intros key Hkey. rewrite Hp. apply applyEntries_other_plan.
    apply Forall_forall. intros en Hen.
    assert (en ∈ entries catalog) as Hin by (rewrite Hes; set_solver).
    destruct en as [s|s p]; [done|].
    apply elem_of_entries in Hin as [Hs' Hp']. rewrite entryKey_plan.
    intros [= Heq]. eapply Hkey; [|by rewrite <- Heq]. by eapply planIDs_elem.
Qed.

(** ** Labels the reconciler does not own *)

(** The labels of [new] are those of [old], but for the keys in [owned]. *)
Definition keepsLabels (owned : list string) (old new : option (gmap string string))
  : Prop :=
  forall k, k ∉ owned -> new ≫= (.!! k) = old ≫= (.!! k).

Lemma keepsLabels_refl owned labels : keepsLabels owned labels labels.
Proof. by intros k _. Qed.

Lemma keepsLabels_trans owned l1 l2 l3 :
  keepsLabels owned l1 l2 -> keepsLabels owned l2 l3 -> keepsLabels owned l1 l3.
Proof. intros H12 H23 k Hk. by rewrite H23, H12. Qed.

Lemma keepsLabels_setLabel owned k v labels :
  k ∈ owned -> keepsLabels owned labels (setLabel k v labels).
Proof.
  intros Hk k' Hk'. unfold setLabel. simpl.
  rewrite lookup_insert_ne by (intros ->; done).
  destruct labels; simpl; [done|]. apply lookup_empty.
Qed.

Lemma serviceOfferingMutateFn_keepsLabels b s x :
  keepsLabels [RelServiceBrokerLabel] (CFServiceOffering.Labels x)
    (CFServiceOffering.Labels (applied (serviceOfferingMutateFn b s) x)).
Proof.
  unfold applied, serviceOfferingMutateFn.
  destruct (toSpecServiceOffering s) as [[spec e]|v]; simpl.
  - apply keepsLabels_setLabel. set_solver.
  - apply keepsLabels_refl.
Qed.

Lemma servicePlanMutateFn_keepsLabels so p x :
  keepsLabels [RelServiceBrokerLabel; RelServiceOfferingLabel] (CFServicePlan.Labels x)
    (CFServicePlan.Labels (applied (servicePlanMutateFn so p) x)).
Proof.
  unfold applied, servicePlanMutateFn.
  destruct (json_Marshal (Plan.Metadata p)) as [raw|e]; simpl.
  all: eapply keepsLabels_trans; apply keepsLabels_setLabel; set_solver.
Qed.

(** Every offering and plan of [st] is still in [st'], with the labels it
    had, but for the labels the reconciler owns. *)
Definition keepsObjects
    (st st' : gmap NamespacedName CFServiceOffering.t * gmap NamespacedName CFServicePlan.t)
  : Prop :=
  (forall key old, st.1 !! key = Some old ->
     exists new, st'.1 !! key = Some new
       /\ keepsLabels [RelServiceBrokerLabel]
                      (CFServiceOffering.Labels old) (CFServiceOffering.Labels new))
  /\ (forall key old, st.2 !! key = Some old ->
        exists new, st'.2 !! key = Some new
          /\ keepsLabels [RelServiceBrokerLabel; RelServiceOfferingLabel]
                         (CFServicePlan.Labels old) (CFServicePlan.Labels new)).

Lemma keepsObjects_refl st : keepsObjects st st.
Proof. split; intros key old Hold; eauto using keepsLabels_refl. Qed.

Lemma keepsObjects_trans st1 st2 st3 :
  keepsObjects st1 st2 -> keepsObjects st2 st3 -> keepsObjects st1 st3.
Proof.
  intros [Ho12 Hp12] [Ho23 Hp23]. split; intros key old Hold.
  - destruct (Ho12 _ _ Hold) as (mid & Hmid & ?).
    destruct (Ho23 _ _ Hmid) as (new & ? & ?). eauto using keepsLabels_trans.
  - destruct (Hp12 _ _ Hold) as (mid & Hmid & ?).
    destruct (Hp23 _ _ Hmid) as (new & ? & ?). eauto using keepsLabels_trans.
Qed.

Lemma applyEntry_keepsObjects b en st : keepsObjects st (applyEntry b en st).
Proof.
  destruct en as [s|s p]; split; simpl; intros key old Hold;
    eauto using keepsLabels_refl.
  - unfold upsert.
    destruct (decide (key = ObjectKeyFromObject (serviceOfferingObject b s))) as [->|Hne].
    + rewrite lookup_insert_eq, Hold. simpl. eexists. split; [done|].
      apply serviceOfferingMutateFn_keepsLabels.
    + rewrite lookup_insert_ne by done. eauto using keepsLabels_refl.
  - unfold upsert.
    destruct (decide (key = ObjectKeyFromObject
                              (servicePlanObject (upsertedOffering b s) p))) as [->|Hne].
    + rewrite lookup_insert_eq, Hold. simpl. eexists. split; [done|].
      apply servicePlanMutateFn_keepsLabels.
    + rewrite lookup_insert_ne by done. eauto using keepsLabels_refl.
Qed.

Lemma applyEntries_keepsObjects b es st : keepsObjects st (applyEntries b es st).
Proof.
  revert st. induction es as [|en es IH]; intros st; simpl.
  - apply keepsObjects_refl.
  - eapply keepsObjects_trans; [apply applyEntry_keepsObjects | apply IH].
Qed.

(** X4. A run of [reconcileCatalog], however it ends, deletes nothing:
    every offering and every plan stored before is stored after it under
    the same key; and it keeps the labels it does not own: on an offering
    every label but the broker label, on a plan every label but the broker
    label and the offering label, reads as before. *)
Theorem reconcileCatalog_deletes_nothing_and_keeps_foreign_labels b catalog w out w' :
  reconcileCatalog b catalog w = (out, w') ->
  (forall key old, offerings w !! key = Some old ->
     exists new, offerings w' !! key = Some new
       /\ forall k, k <> RelServiceBrokerLabel ->
            CFServiceOffering.Labels new ≫= (.!! k)
            = CFServiceOffering.Labels old ≫= (.!! k))
  /\ (forall key old, plans w !! key = Some old ->
        exists new, plans w' !! key = Some new
          /\ forall k, k <> RelServiceBrokerLabel -> k <> RelServiceOfferingLabel ->
               CFServicePlan.Labels new ≫= (.!! k)
               = CFServicePlan.Labels old ≫= (.!! k)).
Proof.
  rewrite reconcileCatalog_walk. intros Hrun.
  apply walk_prefix in Hrun as (pre & post & _ & Hst & _).
  pose proof (applyEntries_keepsObjects b pre (stores w)) as [Ho Hp].
  rewrite <- Hst in Ho, Hp. split; intros key old Hold.
  - destruct (Ho _ _ Hold) as (new & Hnew & Hl). exists new. split; [done|].
    intros k Hk. apply Hl. apply not_elem_of_cons. split; [done|]. apply not_elem_of_nil.
  - destruct (Hp _ _ Hold) as (new & Hnew & Hl). exists new. split; [done|].
    intros k Hk Hk'. apply Hl.
    by repeat (apply not_elem_of_cons; split; [done|]); apply not_elem_of_nil.
Qed.
End WhatAWalkTouches.

Section Requests.
Context {T : Type} `{ClientObjectLaws T}.

(** [CreateOrPatch] sends one request or two: the read, and at most one
    write. *)
Lemma CreateOrPatch_at_most_two_requests (obj : T) f w out w' :
  CreateOrPatch obj f w = (out, w') ->
  exists delta, trace w' = trace w ++ delta /\ (1 <= length delta <= 2)%nat.
Proof.
  unfold CreateOrPatch, Get, Create, Patch, mutate.
  intros Hc.
  repeat case_match; simplify_eq.
  all: repeat match goal with
         | Hr : request ?ev ?wa = (_, ?wb) |- _ =>
             pose proof (request_trace _ _ _ _ Hr); clear Hr
         end.
  all: rewrite ?trace_store.
  all: repeat match goal with Ht : trace _ = _ |- _ => rewrite Ht; clear Ht end.
  all: rewrite <- ?app_assoc; eexists; split; [done|].
  all: simpl; lia.
Qed.

(** When the mutation fails, [CreateOrPatch] writes nothing, whatever it
    read. *)
Lemma CreateOrPatch_mutation_failed (obj : T) f (e : error) w :
  faults w = [] ->
  (forall x, exists y, f x = Returns (y, Some e)) ->
  exists o w',
    CreateOrPatch obj f w = (Returns (o, OperationResultNone, Some e), w')
    /\ trace w' = trace w ++ [EvGet kind (ObjectKeyFromObject obj)]
    /\ sameObjects w w' /\ faults w' = [].
Proof.
  intros Hf He. unfold CreateOrPatch, Get, mutate.
  rewrite (request_fault_free _ _ Hf).
  destruct (stored (emit _ w) !! ObjectKeyFromObject obj) as [x|].
  - destruct (He x) as (y & ->). exists y. eexists. by repeat split.
  - rewrite (bool_decide_eq_true_2 _ eq_refl : IsNotFound (NewNotFound _ _) = true).
    destruct (He obj) as (y & ->). exists y. eexists. by repeat split.
Qed.
End Requests.

Section Entries.
Context `{Deps}.

Lemma reconcileCatalogPlans_offerings so id ps w out w' :
  reconcileCatalogPlans so id ps w = (out, w') -> offerings w' = offerings w.
Proof.
  revert w. induction ps as [|p ps IH]; intros w; simpl.
  - by intros [= _ <-].
  - unfold reconcileCatalogPlan.
    destruct (CreateOrPatch _ _ w) as [[[[sp r] [e|]]|v] w1] eqn:Hc; intros Hr;
      pose proof (CreateOrPatch_plan_offerings _ _ _ _ _ Hc) as Ho.
    + by simplify_eq.
    + apply IH in Hr. by rewrite Hr.
    + by simplify_eq.
Qed.

(** ** What is stored for a catalog service *)

(** X5. After a successful [reconcileCatalogService] the offering stored
    under the name derived from the broker's name and the ID of the catalog
    service carries the broker's name as its broker label and the catalog
    service in its spec: name, description, tags, requirements, ID and
    features are copied; without metadata the spec has neither metadata nor
    documentation URL; with metadata the spec holds the marshalled
    metadata, and the documentation URL is the string the metadata has
    under [documentationUrl], if any. *)
Theorem reconcileCatalogService_stores_the_catalog_service
    cfServiceBroker catalogService w w' :
  reconcileCatalogService cfServiceBroker catalogService w = (Returns None, w') ->
  exists serviceOffering,
    offerings w' !! (CFServiceBroker.Namespace cfServiceBroker,
                     NamespacedUUID (CFServiceBroker.Name cfServiceBroker)
                                    (Service.ID catalogService))
      = Some serviceOffering
    /\ label (CFServiceOffering.Labels serviceOffering) RelServiceBrokerLabel
       = CFServiceBroker.Name cfServiceBroker
    /\ let spec := CFServiceOffering.Spec serviceOffering in
       ServiceOffering.Name spec = Service.Name catalogService
       /\ ServiceOffering.Description spec = Service.Description catalogService
       /\ ServiceOffering.Tags spec = Service.Tags catalogService
       /\ ServiceOffering.Requires spec = Service.Requires catalogService
       /\ sbc_Id (ServiceOffering.BrokerCatalog spec) = Service.ID catalogService
       /\ sbc_Features (ServiceOffering.BrokerCatalog spec)
          = Service.BrokerCatalogFeatures catalogService
       /\ match Service.Metadata catalogService with
          | None =>
              ServiceOffering.DocumentationURL spec = None
              /\ sbc_Metadata (ServiceOffering.BrokerCatalog spec) = None
          | Some metadata =>
              (exists rawMd,
                 json_Marshal (Some metadata) = inl rawMd
                 /\ sbc_Metadata (ServiceOffering.BrokerCatalog spec)
                    = Some {| Raw := rawMd |})
              /\ match metadata !! "documentationUrl" with
                 | None => ServiceOffering.DocumentationURL spec = None
                 | Some u =>
                     exists url, u = AnyString url
                                 /\ ServiceOffering.DocumentationURL spec = Some url
                 end
          end.
Proof.
  unfold reconcileCatalogService.
  destruct (CreateOrPatch _ _ w) as [[[[so r] [e|]]|v] w1] eqn:Hc; intros Hr;
    [by simplify_eq| |by simplify_eq].
  apply reconcileCatalogPlans_offerings in Hr.
  apply CreateOrPatch_succeeded in Hc as (Hf & _ & Hsto & _).
  exists so. split; [by rewrite Hr|]. clear Hr Hsto.
  unfold serviceOfferingMutateFn, toSpecServiceOffering in Hf.
  destruct (Service.Metadata catalogService) as [metadata|].
  - destruct (metadata !! "documentationUrl") as [u|].
    + destruct u; simpl in Hf; try done.
      destruct (json_Marshal (Some metadata)) as [rawMd|e]; simplify_eq.
      cbn [CFServiceOffering.Labels CFServiceOffering.Spec].
      rewrite label_setLabel. simpl. repeat split; eauto.
    + destruct (json_Marshal (Some metadata)) as [rawMd|e]; simplify_eq.
      cbn [CFServiceOffering.Labels CFServiceOffering.Spec].
      rewrite label_setLabel. simpl. repeat split; eauto.
  - simplify_eq. cbn [CFServiceOffering.Labels CFServiceOffering.Spec].
    rewrite label_setLabel. by repeat split.
Qed.

(** ** Metadata that cannot be marshalled *)

(** X6. When the metadata of a catalog service cannot be marshalled (and
    its documentation URL, if it has one, is a string), and the API server
    answers, [reconcileCatalogService] sends the one request that reads the
    offering, writes nothing, does not go on to the plans, and returns the
    marshalling error under the text that names the service. *)
Theorem reconcileCatalogService_fails_on_metadata_it_cannot_marshal
    cfServiceBroker catalogService metadata e w :
  Service.Metadata catalogService = Some metadata ->
  json_Marshal (Some metadata) = inr e ->
  (forall u, metadata !! "documentationUrl" = Some u -> exists url, u = AnyString url) ->
  faults w = [] ->
  exists w',
    reconcileCatalogService cfServiceBroker catalogService w
    = (Returns (Some (Errorf_w
         ("failed to reconcile service offering " ++ Quote (Service.ID catalogService)
          ++ " : ")%string e)), w')
    /\ trace w' = trace w
         ++ [EvGet KCFServiceOffering
                   (CFServiceBroker.Namespace cfServiceBroker,
                    NamespacedUUID (CFServiceBroker.Name cfServiceBroker)
                                   (Service.ID catalogService))]
    /\ sameObjects w w'.
Proof.
  intros Hmd He Hu Hf. unfold reconcileCatalogService.
  destruct (CreateOrPatch_mutation_failed
              (serviceOfferingObject cfServiceBroker catalogService)
              (serviceOfferingMutateFn cfServiceBroker catalogService) e w Hf)
    as (o & w' & -> & Ht & Hs & _).
  { intros x. unfold serviceOfferingMutateFn, toSpecServiceOffering.
    rewrite Hmd. destruct (metadata !! "documentationUrl") as [u|] eqn:Hdoc.
    - destruct (Hu u eq_refl) as [url ->]. simpl. rewrite He. eauto.
    - rewrite He. eauto. }
  by exists w'.
Qed.

(** X7. When the metadata of a catalog plan cannot be marshalled, and the
    API server answers, [reconcileCatalogPlan] sends the one request that
    reads the plan, writes nothing, and returns the marshalling error under
    the text that names the plan. *)
Theorem reconcileCatalogPlan_fails_on_metadata_it_cannot_marshal
    serviceOffering catalogPlan e w :
  json_Marshal (Plan.Metadata catalogPlan) = inr e ->
  faults w = [] ->
  exists w',
    reconcileCatalogPlan serviceOffering catalogPlan w
    = (Returns (Some (Errorf_w
         ("failed to marshal service plan " ++ Quote (Plan.ID catalogPlan)
          ++ " metadata: ")%string e)), w')
    /\ trace w' = trace w
         ++ [EvGet KCFServicePlan
                   (CFServiceOffering.Namespace serviceOffering,
                    NamespacedUUID
                      (label (CFServiceOffering.Labels serviceOffering)
                             RelServiceBrokerLabel)
                      (Plan.ID catalogPlan))]
    /\ sameObjects w w'.
Proof.
  intros He Hf. unfold reconcileCatalogPlan.
  destruct (CreateOrPatch_mutation_failed
              (servicePlanObject serviceOffering catalogPlan)
              (servicePlanMutateFn serviceOffering catalogPlan)
              (Errorf_w ("failed to marshal service plan "
                         ++ Quote (Plan.ID catalogPlan) ++ " metadata: ")%string e) w Hf)
    as (o & w' & -> & Ht & Hs & _).
  { intros x. unfold servicePlanMutateFn. rewrite He. eauto. }
  by exists w'.
Qed.
End Entries.

Section Failures.
Context `{Deps}.

(** ** The error of a failed walk *)

(** The error [reconcileCatalogService] puts around the cause when the
    upsert of the offering fails, and the one it puts around the error of
    [reconcileCatalogPlan]. *)
Definition offeringFailure (catalogService : Service.t) (cause : error) : error :=
  Errorf_w ("failed to reconcile service offering " ++ Quote (Service.ID catalogService)
            ++ " : ")%string cause.

Definition planFailure (catalogService : Service.t) (catalogPlan : Plan.t)
    (cause : error) : error :=
  Errorf_w ("failed to reconcile service plan " ++ Quote (Plan.ID catalogPlan)
            ++ " for service offering " ++ Quote (Service.ID catalogService)
            ++ ": ")%string cause.

Lemma walk_failed_at b es w e w' :
  walk b es w = (Returns (Some e), w') ->
  exists en w1, en ∈ es /\ reconcileEntry b en w1 = (Returns (Some e), w').
Proof.
  revert w. induction es as [|en es IH]; intros w; simpl; [done|].
  destruct (reconcileEntry b en w) as [[[e'|]|v] w1] eqn:Hen; intros Hw.
  - simplify_eq. exists en, w. split; [by left|done].
  - destruct (IH _ Hw) as (en' & w2 & Hin & Hr). exists en', w2. split; [by right|done].
  - done.
Qed.

(** X8. An error that [reconcileCatalog] returns names what failed: it is
    the error of the upsert of a service of the catalog under the text
    "failed to reconcile service offering", with the quoted ID of the
    service, or the error of the upsert of a plan of a service of the
    catalog under the text "failed to reconcile service plan ... for
    service offering ...", with both quoted IDs. The cause is wrapped, not
    flattened: what [apierrors.ReasonForError] finds in the error is what
    it finds in the cause. *)
Theorem reconcileCatalog_errors_name_what_failed b catalog w e w' :
  reconcileCatalog b catalog w = (Returns (Some e), w') ->
  exists cause,
    ReasonForError e = ReasonForError cause
    /\ ((exists s, s ∈ Services catalog /\ e = offeringFailure s cause)
        \/ (exists s p, s ∈ Services catalog /\ p ∈ Service.Plans s
                        /\ e = planFailure s p cause)).
Proof.
  rewrite reconcileCatalog_walk. intros Hw.
  apply walk_failed_at in Hw as (en & w1 & Hin & Hr).
  apply elem_of_entries in Hin. destruct en as [s|s p]; simpl in Hr.
  - unfold reconcileCatalogService in Hr.
    destruct (CreateOrPatch _ _ w1) as [[[[so r] [cause|]]|v] w2]; simpl in Hr;
      simplify_eq.
    exists cause. split; [done|]. left. by exists s.
  - destruct Hin as [Hs Hp].
    destruct (reconcileCatalogPlan _ p w1) as [[[cause|]|v] w2]; simplify_eq.
    exists cause. split; [done|]. right. by exists s, p.
Qed.

(** ** How many requests a walk sends *)

Lemma reconcileEntry_at_most_two_requests b en w out w' :
  reconcileEntry b en w = (out, w') ->
  exists delta, trace w' = trace w ++ delta /\ (1 <= length delta <= 2)%nat.
Proof.
  destruct en as [s|s p]; simpl.
  - unfold reconcileCatalogService.
    destruct (CreateOrPatch _ _ w) as [r w1] eqn:Hc. intros Hr.
    assert (w' = w1) as -> by (simpl in Hr; repeat case_match; by simplify_eq).
    by apply CreateOrPatch_at_most_two_requests in Hc.
  - unfold reconcileCatalogPlan.
    destruct (CreateOrPatch _ _ w) as [r w1] eqn:Hc. intros Hr.
    assert (w' = w1) as -> by (simpl in Hr; repeat case_match; by simplify_eq).
    by apply CreateOrPatch_at_most_two_requests in Hc.
Qed.

Lemma walk_request_bounds b es w out w' :
  walk b es w = (out, w') ->
  exists delta,
    trace w' = trace w ++ delta
    /\ (length delta <= 2 * length es)%nat
    /\ (out = Returns None -> length es <= length delta)%nat.
Proof.
  revert w. induction es as [|en es IH]; intros w; simpl.
  - intros [= <- <-]. exists []. rewrite app_nil_r. split; [done|]. simpl. lia.
  - destruct (reconcileEntry b en w) as [r w1] eqn:Hen.
    apply reconcileEntry_at_most_two_requests in Hen as (d1 & Ht1 & Hl1).
    destruct r as [[e|]|v]; intros Hw.
    + simplify_eq. exists d1. split; [done|]. split; [lia|done].
    + apply IH in Hw as (d2 & Ht2 & Hl2 & Hl2').
      exists (d1 ++ d2). rewrite Ht2, Ht1, <- app_assoc, length_app.
      split; [done|]. split; [lia|]. intros Hout. specialize (Hl2' Hout). lia.
    + simplify_eq. exists d1. split; [done|]. split; [lia|done].
Qed.

(** The services and the plans of a catalog, counted. *)
Definition catalogSize (catalog : Catalog) : nat :=
  length (Services catalog)
  + length (flat_map Service.Plans (Services catalog)).

Lemma length_entries catalog : length (entries catalog) = catalogSize catalog.
Proof.
  unfold entries, catalogSize. induction (Services catalog) as [|s ss IH]; simpl; [done|].
  rewrite !length_app, length_map, IH. lia.
Qed.

(** X9. A run of [reconcileCatalog], however it ends, sends at most two
    requests for each service and each plan of the catalog (the read, and
    one write at most), and nothing else is recorded; a run that succeeds
    has sent at least one request for each. *)
Theorem reconcileCatalog_sends_at_most_two_requests_per_entry b catalog w out w' :
  reconcileCatalog b catalog w = (out, w') ->
  exists delta,
    trace w' = trace w ++ delta
    /\ Forall (fun ev => isRequest ev = true) delta
    /\ (length delta <= 2 * catalogSize catalog)%nat
    /\ (out = Returns None -> catalogSize catalog <= length delta)%nat.
Proof.
  intros Hrun.
  destruct (reconcileCatalog_requestsOnly _ _ _ _ _ Hrun) as ((d & Hd & Hreq) & _).
  rewrite reconcileCatalog_walk in Hrun.
  apply walk_request_bounds in Hrun as (delta & Ht & Hle & Hge).
  rewrite length_entries in Hle, Hge.
  exists delta. split; [done|]. split; [|done].
  rewrite Ht in Hd. by apply app_inv_head in Hd as ->.
Qed.
End Failures.

Section Invocation.
Context `{Deps}.

(** ** The catalog client *)

(** X10. When the catalog client returns an error (with or without a
    catalog), [ReconcileResource] returns that very error with the empty
    result, writes the Ready condition False with the reason
    GetCatalogFailed and the text of the error, and sends nothing to the
    API server after reading the secret: no offering and no plan is
    touched. The version of the secret and the generation of the broker
    are recorded all the same. *)
Theorem ReconcileResource_returns_the_error_of_the_catalog_client
    r b w credentialsSecret w1 catalog e :
  GetSecret (CFServiceBroker.Namespace b, CFServiceBroker.Credentials b) w
    = (inl credentialsSecret, w1) ->
  validateCredentials credentialsSecret = None ->
  GetCatalog (catalogClient r)
    (setCredentialsObservedVersion (Secret.ResourceVersion credentialsSecret)
       (setObservedGeneration (CFServiceBroker.Generation b) b))
    = (catalog, Some e) ->
  exists c b',
    ReconcileResource r b w
    = (Returns (Result_zero, Some e), b',
       emit (EvSetStatusCondition c) (emit (EvGetCatalog (CFServiceBroker.Name b)) w1))
    /\ Condition.Type_ c = StatusConditionReady
    /\ Condition.Status c = ConditionFalse
    /\ Condition.Reason c = "GetCatalogFailed"
    /\ Condition.Message c = Error e
    /\ CFServiceBroker.CredentialsObservedVersion (CFServiceBroker.Status b')
       = Secret.ResourceVersion credentialsSecret
    /\ CFServiceBroker.ObservedGeneration (CFServiceBroker.Status b')
       = CFServiceBroker.Generation b
    /\ offerings w1 = offerings w /\ plans w1 = plans w.
Proof.
  intros Hget Hvalid Hcatalog.
  destruct (GetSecret_requestsOnly _ _ _ _ Hget) as [_ [Ho Hp]].
  unfold ReconcileResource, ReconcileResource_body.
  cbn [CFServiceBroker.Namespace CFServiceBroker.Credentials setObservedGeneration].
  rewrite Hget, Hvalid.
  cbn zeta. rewrite Hcatalog.
  destruct catalog as [catalog|]; (eexists _, _; split; [reflexivity|]; by repeat split).
Qed.

(** ** What every invocation records on the broker *)

(** X11. Whatever happens in an invocation of [ReconcileResource] (it may
    fail or panic), the broker keeps its name, namespace, generation and
    credentials reference, and its observed generation is its generation.
    The observed version of the credentials changes only when the secret
    was fetched and found valid, and then it is the resource version of
    that secret. *)
Theorem ReconcileResource_records_the_generation_on_every_path r b w out b' w' :
  ReconcileResource r b w = (out, b', w') ->
  CFServiceBroker.Name b' = CFServiceBroker.Name b
  /\ CFServiceBroker.Namespace b' = CFServiceBroker.Namespace b
  /\ CFServiceBroker.Generation b' = CFServiceBroker.Generation b
  /\ CFServiceBroker.Credentials b' = CFServiceBroker.Credentials b
  /\ CFServiceBroker.ObservedGeneration (CFServiceBroker.Status b')
     = CFServiceBroker.Generation b
  /\ CFServiceBroker.CredentialsObservedVersion (CFServiceBroker.Status b')
     = match (GetSecret (CFServiceBroker.Namespace b, CFServiceBroker.Credentials b) w).1
       with
       | inl credentialsSecret =>
           match validateCredentials credentialsSecret with
           | None => Secret.ResourceVersion credentialsSecret
           | Some _ => CFServiceBroker.CredentialsObservedVersion (CFServiceBroker.Status b)
           end
       | inr _ => CFServiceBroker.CredentialsObservedVersion (CFServiceBroker.Status b)
       end.
Proof.
  unfold ReconcileResource, ReconcileResource_body.
  cbn [CFServiceBroker.Namespace CFServiceBroker.Credentials setObservedGeneration].
  destruct (GetSecret _ w) as [got w0]. intros Hrun. cbn [fst].
  repeat case_match; simplify_eq; by repeat split.
Qed.

(** X12. An invocation of [ReconcileResource] calls the catalog client
    once when the secret was fetched and found valid, and not at all
    otherwise. *)
Theorem ReconcileResource_calls_the_catalog_client_at_most_once r b w out b' w' :
  ReconcileResource r b w = (out, b', w') ->
  catalogCalls (trace w')
  = catalogCalls (trace w)
    ++ match (GetSecret (CFServiceBroker.Namespace b, CFServiceBroker.Credentials b) w).1
       with
       | inl credentialsSecret =>
           match validateCredentials credentialsSecret with
           | None => [CFServiceBroker.Name b]
           | Some _ => []
           end
       | inr _ => []
       end.
Proof.
  unfold ReconcileResource, ReconcileResource_body.
  cbn [CFServiceBroker.Namespace CFServiceBroker.Credentials setObservedGeneration].
  destruct (GetSecret _ w) as [got w0] eqn:Hget. intros Hrun.
  apply GetSecret_requestsOnly in Hget as [Hreq _].
  apply requestsOnly_catalogCalls in Hreq.
  assert (forall t c, catalogCalls (t ++ [EvSetStatusCondition c]) = catalogCalls t) as Hc.
  { intros t c. unfold catalogCalls. rewrite omap_app. simpl. by rewrite app_nil_r. }
  assert (forall t n, catalogCalls (t ++ [EvGetCatalog n]) = catalogCalls t ++ [n]) as Hg.
  { intros t n. unfold catalogCalls. by rewrite omap_app. }
  cbn [fst]. destruct got as [credentialsSecret|e].
  - destruct (validateCredentials credentialsSecret) as [e|].
    + simplify_eq. simpl. by rewrite Hc, Hreq, app_nil_r.
    + cbn zeta in Hrun.
      destruct (GetCatalog _ _) as [[catalog|] [e|]].
      * simplify_eq. simpl. by rewrite Hc, Hg, Hreq.
      * destruct (reconcileCatalog _ catalog _) as [res w3] eqn:Hrun3.
        apply reconcileCatalog_requestsOnly, requestsOnly_catalogCalls in Hrun3.
        simpl in Hrun3. rewrite Hg, Hreq in Hrun3.
        destruct res as [[e|]|v]; simplify_eq; simpl; by rewrite Hc.
      * simplify_eq. simpl. by rewrite Hc, Hg, Hreq.
      * simplify_eq. simpl. by rewrite Hc, Hg, Hreq.
  - destruct (IsNotFound e); simplify_eq; simpl; by rewrite Hc, Hreq, app_nil_r.
Qed.

(** ** Reaching Ready *)

(** X13. The Ready outcome is reached whenever nothing stands in its way:
    when the API server answers every request, the secret is stored and
    valid, the catalog client returns a catalog, and every entry of the
    catalog can be turned into a spec, [ReconcileResource] returns the
    empty result and no error, every service and plan of the catalog is
    stored, and the cluster is left in a state that meets the same
    conditions again. *)
Theorem ReconcileResource_reaches_Ready r b w credentialsSecret catalog :
  faults w = [] ->
  wellKeyed (offerings w) -> wellKeyed (plans w) ->
  secrets w !! (CFServiceBroker.Namespace b, CFServiceBroker.Credentials b)
    = Some credentialsSecret ->
  validateCredentials credentialsSecret = None ->
  GetCatalog (catalogClient r)
    (setCredentialsObservedVersion (Secret.ResourceVersion credentialsSecret)
       (setObservedGeneration (CFServiceBroker.Generation b) b))
    = (Some catalog, None) ->
  Forall entryOK (entries catalog) ->
  exists b' w',
    ReconcileResource r b w = (Returns (Result_zero, None), b', w')
    /\ faults w' = [] /\ wellKeyed (offerings w') /\ wellKeyed (plans w')
    /\ secrets w' = secrets w
    /\ (forall s, s ∈ Services catalog ->
          is_Some (offerings w' !! (CFServiceBroker.Namespace b,
                                    NamespacedUUID (CFServiceBroker.Name b)
                                                   (Service.ID s))))
    /\ (forall s p, s ∈ Services catalog -> p ∈ Service.Plans s ->
          is_Some (plans w' !! (CFServiceBroker.Namespace b,
                                NamespacedUUID (CFServiceBroker.Name b) (Plan.ID p)))).
Proof.
  intros Hf Ho Hp Hsecret Hvalid Hcatalog Hok.
  unfold ReconcileResource, ReconcileResource_body, GetSecret.
  cbn [CFServiceBroker.Namespace CFServiceBroker.Credentials setObservedGeneration].
  rewrite (request_fault_free _ _ Hf). cbn [secrets emit].
  rewrite Hsecret, Hvalid. cbn zeta. rewrite Hcatalog, reconcileCatalog_walk.
  match goal with |- context [walk ?b2 _ ?w2] =>
    destruct (walk_fault_free b2 (entries catalog) w2) as (w3 & Hw & Hf3 & Ho3 & Hp3);
      [done..|];
    pose proof (walk_succeeded _ _ _ _ Hw) as (Hst & _);
    pose proof (applyEntries_present_all b2 (entries catalog) (stores w2)) as Hall
  end.
  rewrite Hw. eexists _, _. split; [reflexivity|].
  rewrite <- Hst in Hall. rewrite Forall_forall in Hall.
  split; [done|]. split; [done|]. split; [done|]. split; [|split].
  - rewrite <- reconcileCatalog_walk in Hw.
    apply reconcileCatalog_requestsOnly in Hw as (_ & Hs & _).
    cbn [secrets emit]. by rewrite Hs.
  - intros s Hs. exact (Hall _ (entries_offering _ _ Hs)).
  - intros s p Hs Hp'. specialize (Hall _ (entries_plan _ _ _ Hs Hp')).
    unfold present in Hall. by rewrite entryKey_plan in Hall.
Qed.
End Invocation.

Section CredentialsAndSecrets.
Context `{Deps}.

(** ** The credentials that pass *)

(** X14. [validateCredentials] accepts a secret exactly when the payload
    under the credentials key is a JSON object that has the username key
    and the password key. What the two keys hold is not looked at. *)
Theorem validateCredentials_accepts_exactly_an_object_with_both_keys credentialsSecret :
  validateCredentials credentialsSecret = None
  <-> exists creds,
        json_decode (credentialsPayload credentialsSecret) = inl (AnyMap creds)
        /\ is_Some (creds !! UsernameCredentialsKey)
        /\ is_Some (creds !! PasswordCredentialsKey).
Proof.
  unfold validateCredentials, json_Unmarshal, credentialsPayload.
  destruct (json_decode _) as [v|e]; simpl; [|split; [done|by intros (? & ? & _)]].
  destruct v as [| | | | |creds]; simpl; rewrite ?lookup_empty;
    try (split; [done|by intros (? & ? & _)]).
  rewrite (right_id_L ∅ (∪)).
    destruct (creds !! UsernameCredentialsKey) as [u|] eqn:Hu;
      [destruct (creds !! PasswordCredentialsKey) as [p|] eqn:Hp|].
  - split; [|done]. intros _. exists creds. by rewrite Hu, Hp.
  - split; [done|]. intros (? & [= <-] & _ & [? Hp']). congruence.
  - split; [done|]. intros (? & [= <-] & [? Hu'] & _). congruence.
Qed.

(** X15. The username is asked for first. For a payload that is a JSON
    object, or [null] (which leaves the map of credentials empty),
    [validateCredentials] returns the error that names the username key
    when that key is missing, whether the password key is there or not,
    and the error that names the password key when only that one is
    missing. *)
Theorem validateCredentials_names_the_first_missing_key credentialsSecret creds k :
  json_decode (credentialsPayload credentialsSecret) = inl (AnyMap creds)
  \/ (json_decode (credentialsPayload credentialsSecret) = inl AnyNil /\ creds = ∅) ->
  (k = UsernameCredentialsKey /\ creds !! UsernameCredentialsKey = None)
  \/ (k = PasswordCredentialsKey /\ is_Some (creds !! UsernameCredentialsKey)
      /\ creds !! PasswordCredentialsKey = None) ->
  validateCredentials credentialsSecret
  = Some (ErrorString ("broker credentials secret "
                       ++ Quote (Secret.Name credentialsSecret)
                       ++ " does not specify " ++ Quote k)%string).
Proof.
  unfold validateCredentials, json_Unmarshal, credentialsPayload.
  intros [->|[-> ->]] [[-> Hu]|(-> & [u Hu] & Hp)]; simpl;
    rewrite ?(right_id_L ∅ (∪)), ?Hu, ?Hp; done.
Qed.

(** ** Secret events *)

(** The brokers are stored under their namespace and name. *)
Definition brokersWellKeyed (w : World) : Prop :=
  forall key b, brokers w !! key = Some b ->
    (CFServiceBroker.Namespace b, CFServiceBroker.Name b) = key.

Lemma NoDup_map_filter_keyed {A B} (f : A -> B) (P : A -> Prop) `{!forall x, Decision (P x)}
    (l : list A) :
  NoDup (map f l) -> NoDup (map f (filter P l)).
Proof.
  induction l as [|x l IH]; simpl; [done|].
  intros [Hx Hl]%NoDup_cons. rewrite filter_cons. destruct (decide (P x)); [|by apply IH].
  simpl. apply NoDup_cons. split; [|by apply IH].
  intros Hin. apply Hx. apply list_elem_of_fmap in Hin as (y & -> & Hy).
  apply list_elem_of_filter in Hy as [_ Hy]. apply list_elem_of_fmap. eauto.
Qed.

(** X16. [secretToServiceBroker] only reads: it sends the one listing
    request and leaves every stored object as it is. When the brokers are
    stored under their namespace and name, no broker is enqueued twice. *)
Theorem secretToServiceBroker_reads_once_and_enqueues_no_broker_twice o w :
  brokersWellKeyed w ->
  let requests := (secretToServiceBroker o w).1 in
  let w' := (secretToServiceBroker o w).2 in
  NoDup requests
  /\ trace w' = trace w ++ [EvList KCFServiceBroker (Secret.Namespace o)
                                    IndexServiceBrokerCredentialsSecretName
                                    (Secret.Name o)]
  /\ secrets w' = secrets w /\ brokers w' = brokers w
  /\ offerings w' = offerings w /\ plans w' = plans w.
Proof.
  intros Hkeyed. unfold secretToServiceBroker, ListBrokers.
  destruct (request _ w) as [fault w1] eqn:Hr.
  pose proof (request_trace _ _ _ _ Hr) as Ht.
  assert (secrets w1 = secrets w /\ brokers w1 = brokers w
          /\ offerings w1 = offerings w /\ plans w1 = plans w) as (Hs & Hb & Ho & Hp).
  { unfold request in Hr. destruct (faults w); by simplify_eq. }
  destruct fault as [e|]; simpl; (split; [|done]); [constructor|].
  rewrite Hb. apply NoDup_map_filter_keyed.
  assert (map (fun sb => {| NamespacedName_ :=
                              (CFServiceBroker.Namespace sb, CFServiceBroker.Name sb) |})
              (map snd (map_to_list (brokers w)))
          = map (fun kb => {| NamespacedName_ := kb.1 |}) (map_to_list (brokers w))) as ->.
  { rewrite map_map. apply map_ext_in. intros [key b] Hin. simpl.
    apply list_elem_of_In, elem_of_map_to_list in Hin. by rewrite (Hkeyed _ _ Hin). }
  rewrite <- (map_map fst (fun k => {| NamespacedName_ := k |})).
  apply NoDup_fmap_2; [by intros ?? [=]|]. apply NoDup_fst_map_to_list.
Qed.
End CredentialsAndSecrets.

(** * The service plan repository ([api/repositories])

    [ServicePlanRepo.ListPlans] is the read side of the plans the
    reconciler writes: it lists the CFServicePlan objects of the root
    namespace with the client of the user and turns each into a
    [ServicePlanResource]. *)

(** The package [model]. Modelled from the spec: [model.CFResource],
    [model.Metadata], [model.ToOneRelationship] and [model.Relationship] are
    declared in the package [model]; the fields are those [ListPlans] fills
    and its test reads ([UpdatedAt] is the one [ListPlans] leaves nil). *)
Module model.
Record Metadata := {
  Labels : option (gmap string string);
  Annotations : option (gmap string string)
}.
Record CFResource := {
  GUID : string;
  CreatedAt : Z;
  UpdatedAt : option Z;
  Metadata_ : Metadata
}.
Record Relationship := { rel_GUID : string }.
Record ToOneRelationship := { Data : Relationship }.
End model.

(** [ServicePlanResourceType] *)
Definition ServicePlanResourceType : string := "Service Plan".

Module ServicePlanRelationships.
Record t := { ServiceOffering : model.ToOneRelationship }.
End ServicePlanRelationships.

(** [ServicePlanResource]: the embedded [services.ServicePlan] (its one
    member is the [BrokerServicePlan]), the embedded [model.CFResource], and
    the relationships. *)
Module ServicePlanResource.
Record t := {
  ServicePlan : BrokerServicePlan.t;
  CFResource : model.CFResource;
  Relationships : ServicePlanRelationships.t
}.
End ServicePlanResource.

(** What the repository takes from outside this file: the type
    [authorization.Info]; [apierrors.FromK8sError] of the package
    [api/errors]; and the two fields of the metadata of a stored plan that
    [ListPlans] reads and the reconciler never writes, the creation
    timestamp (set by the API server) and the annotations, given by the key
    of the plan. *)
Class RepositoryDeps := {
  Info : Type;
  FromK8sError : error -> string -> error;
  CreationTimestamp : NamespacedName -> Z;
  Annotations : NamespacedName -> option (gmap string string)
}.

(** [authorization.UserK8sClientFactory]: [BuildClient] yields a client for
    the cluster with the rights of the user, or an error. The cluster is the
    [World]; what the user may not do shows as a request that fails. *)
Record UserK8sClientFactory `{RepositoryDeps} := {
  BuildClient : Info -> option error
}.

Record ServicePlanRepo `{RepositoryDeps} := {
  userClientFactory : UserK8sClientFactory;
  rootNamespace : string
}.

Section Repository.
Context `{Deps} `{RepositoryDeps}.

Definition NewServicePlanRepo (userClientFactory : UserK8sClientFactory)
    (rootNamespace : string) : ServicePlanRepo :=
  {| userClientFactory := userClientFactory; rootNamespace := rootNamespace |}.

(** [client.List] of the plans with [client.InNamespace]. *)
Definition ListCFServicePlans (namespace : string) : Go (list CFServicePlan.t + error) :=
  fun w =>
  let '(fault, w1) := request (EvList KCFServicePlan namespace EmptyString EmptyString) w in
  match fault with
  | Some err => (inr err, w1)
  | None =>
      (inl (filter (fun p => CFServicePlan.Namespace p = namespace)
                   (map snd (map_to_list (plans w1)))), w1)
  end.

(** The struct literal [ListPlans] appends for a plan. *)
Definition servicePlanResource (plan : CFServicePlan.t) : ServicePlanResource.t :=
  {| ServicePlanResource.ServicePlan := CFServicePlan.Spec plan;
     ServicePlanResource.CFResource :=
       {| model.GUID := CFServicePlan.Name plan;
          model.CreatedAt :=
            CreationTimestamp (CFServicePlan.Namespace plan, CFServicePlan.Name plan);
          model.UpdatedAt := None;
          model.Metadata_ :=
            {| model.Labels := CFServicePlan.Labels plan;
               model.Annotations :=
                 Annotations (CFServicePlan.Namespace plan, CFServicePlan.Name plan) |} |};
     ServicePlanResource.Relationships :=
       {| ServicePlanRelationships.ServiceOffering :=
            {| model.Data :=
                 {| model.rel_GUID :=
                      label (CFServicePlan.Labels plan) RelServiceOfferingLabel |} |} |} |}.

(** [ListPlans]: the nil slice is the empty list. *)
Definition ListPlans (r : ServicePlanRepo) (authInfo : Info)
  : Go (list ServicePlanResource.t * option error) := fun w =>
  match BuildClient (userClientFactory r) authInfo with
  | Some err => (([], Some (Errorf_w "failed to build user client: " err)), w)
  | None =>
      let '(listed, w1) := ListCFServicePlans (rootNamespace r) w in
      match listed with
      | inr err => (([], Some (FromK8sError err ServicePlanResourceType)), w1)
      | inl items => ((map servicePlanResource items, None), w1)
      end
  end.
End Repository.

Section RepositoryProperties.
Context `{Deps} `{RepositoryDeps}.

(** X17. When [ListPlans] returns an error it returns no plans. Either the
    client of the user could not be built: the error wraps the cause under
    "failed to build user client: " and nothing was sent to the API server;
    or the listing failed: the error is what [FromK8sError] makes of the
    cause for the resource type "Service Plan", and the listing was the one
    request sent. *)
Theorem ListPlans_returns_no_plans_with_an_error r authInfo w result e w' :
  ListPlans r authInfo w = ((result, Some e), w') ->
  result = []
  /\ ((exists cause,
         BuildClient (userClientFactory r) authInfo = Some cause
         /\ e = WrapError ("failed to build user client: " ++ Error cause)%string cause
         /\ w' = w)
      \/ (exists cause,
            BuildClient (userClientFactory r) authInfo = None
            /\ e = FromK8sError cause "Service Plan"
            /\ trace w' = trace w
                 ++ [EvList KCFServicePlan (rootNamespace r) EmptyString EmptyString]
            /\ sameObjects w w')).
Proof.
  unfold ListPlans, ListCFServicePlans.
  destruct (BuildClient _ authInfo) as [cause|].
  - intros [= <- <- <-]. split; [done|]. left. by exists cause.
  - destruct (request _ w) as [[cause|] w1] eqn:Hr; intros Hl; simplify_eq.
    split; [done|]. right. exists cause. split; [done|]. split; [done|].
    split; [by eapply request_trace|].
    pose proof (sameObjects_request (EvList KCFServicePlan (rootNamespace r) "" "") w) as Hs.
    by rewrite Hr in Hs.
Qed.

End RepositoryProperties.

Section WriteThenList.
Context `{Deps} `{RepositoryDeps}.

(** ** From the catalog to the listing *)

End WriteThenList.

(** * The fake of the plan repository ([api/handlers/fake])

    The counterfeiter fake of [handlers.CFServicePlanRepository] that the
    handler tests drive. A method takes the fake and yields the fake as the
    call leaves it. The two mutexes order concurrent callers; the model is
    of one caller at a time, where they do nothing. A stub is a function of
    the arguments. *)
Module fake.
Section Fake.
Context `{RepositoryDeps} {Ctx : Type}.

(** What [ListPlans] returns. *)
Definition Results : Type := (list ServicePlanResource.t * option error)%type.

(** An argument, as the [interface{}] the log of invocations keeps. *)
Inductive Arg :=
| ArgContext (c : Ctx)
| ArgInfo (i : Info).

Record CFServicePlanRepository := {
  ListPlansStub : option (Ctx -> Info -> Results);
  listPlansArgsForCall : list (Ctx * Info);
  listPlansReturns : Results;
  (** [None] is the nil map *)
  listPlansReturnsOnCall : option (gmap Z Results);
  invocations : option (gmap string (list (list Arg)))
}.

(** [new(CFServicePlanRepository)] *)
Definition zero : CFServicePlanRepository :=
  {| ListPlansStub := None; listPlansArgsForCall := [];
     listPlansReturns := ([], None); listPlansReturnsOnCall := None;
     invocations := None |}.

Definition recordInvocation (key : string) (args : list Arg)
    (fake : CFServicePlanRepository) : CFServicePlanRepository :=
  let invocations := default ∅ (invocations fake) in
  {| ListPlansStub := ListPlansStub fake;
     listPlansArgsForCall := listPlansArgsForCall fake;
     listPlansReturns := listPlansReturns fake;
     listPlansReturnsOnCall := listPlansReturnsOnCall fake;
     invocations :=
       Some (<[key := default [] (invocations !! key) ++ [args]]> invocations) |}.

Definition ListPlans (arg1 : Ctx) (arg2 : Info) (fake : CFServicePlanRepository)
  : Results * CFServicePlanRepository :=
  let specific :=
    listPlansReturnsOnCall fake
      ≫= (.!! Z.of_nat (length (listPlansArgsForCall fake))) in
  let stub := ListPlansStub fake in
  let fakeReturns := listPlansReturns fake in
  let fake :=
    recordInvocation "ListPlans" [ArgContext arg1; ArgInfo arg2]
      {| ListPlansStub := ListPlansStub fake;
         listPlansArgsForCall := listPlansArgsForCall fake ++ [(arg1, arg2)];
         listPlansReturns := listPlansReturns fake;
         listPlansReturnsOnCall := listPlansReturnsOnCall fake;
         invocations := invocations fake |} in
  match stub with
  | Some stub => (stub arg1 arg2, fake)
  | None =>
      match specific with
      | Some ret => (ret, fake)
      | None => (fakeReturns, fake)
      end
  end.

Definition ListPlansCallCount (fake : CFServicePlanRepository) : Z :=
  Z.of_nat (length (listPlansArgsForCall fake)).

Definition ListPlansCalls (stub : option (Ctx -> Info -> Results))
    (fake : CFServicePlanRepository) : CFServicePlanRepository :=
  {| ListPlansStub := stub;
     listPlansArgsForCall := listPlansArgsForCall fake;
     listPlansReturns := listPlansReturns fake;
     listPlansReturnsOnCall := listPlansReturnsOnCall fake;
     invocations := invocations fake |}.

(** Indexing the slice of arguments panics out of range. *)
Definition ListPlansArgsForCall (i : Z) (fake : CFServicePlanRepository)
  : outcome (Ctx * Info) :=
  if decide (i < 0)
  then Panics ("runtime error: index out of range [" ++ pretty i ++ "]")
  else match listPlansArgsForCall fake !! Z.to_nat i with
       | Some argsForCall => Returns argsForCall
       | None =>
           Panics ("runtime error: index out of range [" ++ pretty i
                   ++ "] with length "
                   ++ pretty (Z.of_nat (length (listPlansArgsForCall fake))))
       end.

Definition ListPlansReturns (result : Results) (fake : CFServicePlanRepository)
  : CFServicePlanRepository :=
  {| ListPlansStub := None;
     listPlansArgsForCall := listPlansArgsForCall fake;
     listPlansReturns := result;
     listPlansReturnsOnCall := listPlansReturnsOnCall fake;
     invocations := invocations fake |}.

Definition ListPlansReturnsOnCall (i : Z) (result : Results)
    (fake : CFServicePlanRepository) : CFServicePlanRepository :=
  {| ListPlansStub := None;
     listPlansArgsForCall := listPlansArgsForCall fake;
     listPlansReturns := listPlansReturns fake;
     listPlansReturnsOnCall :=
       Some (<[i := result]> (default ∅ (listPlansReturnsOnCall fake)));
     invocations := invocations fake |}.

(** [Invocations] hands out a copy of the log, which is never nil. *)
Definition Invocations (fake : CFServicePlanRepository)
  : gmap string (list (list Arg)) :=
  default ∅ (invocations fake).
End Fake.
End fake.

Module fake_properties.
Import fake.
Section FakeProperties.
Context `{RepositoryDeps} {Ctx : Type}.
Implicit Types fake : CFServicePlanRepository (Ctx:=Ctx).

(** ** Driving the fake *)

(** What a test does with the fake, one step at a time. *)
Inductive Op :=
| CallListPlans (arg1 : Ctx) (arg2 : Info)
| CallListPlansCalls (stub : option (Ctx -> Info -> Results))
| CallListPlansReturns (result : Results)
| CallListPlansReturnsOnCall (i : Z) (result : Results).

Definition step (op : Op) fake : CFServicePlanRepository :=
  match op with
  | CallListPlans arg1 arg2 => (ListPlans arg1 arg2 fake).2
  | CallListPlansCalls stub => ListPlansCalls stub fake
  | CallListPlansReturns result => ListPlansReturns result fake
  | CallListPlansReturnsOnCall i result => ListPlansReturnsOnCall i result fake
  end.

Fixpoint run (ops : list Op) fake : CFServicePlanRepository :=
  match ops with
  | [] => fake
  | op :: rest => run rest (step op fake)
  end.

(** The arguments of the calls of [ListPlans] among the steps, in order. *)
Definition callsOf (ops : list Op) : list (Ctx * Info) :=
  omap (fun op => match op with
                  | CallListPlans arg1 arg2 => Some (arg1, arg2)
                  | _ => None
                  end) ops.

(** An entry of the log of invocations, for the arguments of a call. *)
Definition logged (a : Ctx * Info) : list Arg := [ArgContext a.1; ArgInfo a.2].

(** The log of invocations agrees with the recorded arguments. *)
Definition consistent fake : Prop :=
  default [] (Invocations fake !! "ListPlans") = map logged (listPlansArgsForCall fake).

Lemma consistent_zero : consistent zero.
Proof. unfold consistent, Invocations. simpl. by rewrite lookup_empty. Qed.

Lemma step_consistent op fake :
  consistent fake ->
  consistent (step op fake)
  /\ listPlansArgsForCall (step op fake)
     = listPlansArgsForCall fake ++ callsOf [op].
Proof.
  unfold consistent, Invocations. intros Hc.
  destruct op as [arg1 arg2|stub|result|i result]; simpl;
    rewrite ?app_nil_r; try done.
  unfold ListPlans. destruct (ListPlansStub fake) as [stub|];
    [|destruct (_ ≫= _) as [ret|]]; simpl.
  all: by rewrite lookup_insert_eq, map_app, Hc.
Qed.

Lemma run_consistent ops fake :
  consistent fake ->
  consistent (run ops fake)
  /\ listPlansArgsForCall (run ops fake) = listPlansArgsForCall fake ++ callsOf ops.
Proof.
  revert fake. induction ops as [|op ops IH]; intros fake Hc; simpl.
  - by rewrite app_nil_r.
  - destruct (step_consistent op fake Hc) as [Hc1 Ha1].
    destruct (IH _ Hc1) as [Hc2 Ha2]. split; [done|].
    rewrite Ha2, Ha1, <- app_assoc. f_equal.
    unfold callsOf. simpl. by destruct op.
Qed.

(** X20. The fake keeps the history of its calls. After any sequence of
    calls of its methods on a new fake, the call count is the number of
    calls of [ListPlans] made; [ListPlansArgsForCall] returns the arguments
    of the call with the given number, counted from 0, and panics for a
    number that is negative or not below the call count; and the log of
    invocations holds, under "ListPlans", the arguments of those calls in
    order. *)
Theorem the_fake_keeps_the_history_of_its_calls (ops : list Op) :
  let fake := run ops zero in
  ListPlansCallCount fake = Z.of_nat (length (callsOf ops))
  /\ (forall n a, callsOf ops !! n = Some a ->
        ListPlansArgsForCall (Z.of_nat n) fake = Returns a)
  /\ (forall i, i < 0 \/ Z.of_nat (length (callsOf ops)) <= i ->
        exists v, ListPlansArgsForCall i fake = Panics v)
  /\ default [] (Invocations fake !! "ListPlans") = map logged (callsOf ops).
Proof.
  destruct (run_consistent ops zero consistent_zero) as [Hc Ha].
  simpl in Ha. cbv zeta. unfold ListPlansCallCount, ListPlansArgsForCall.
  rewrite Hc, Ha. split; [done|]. split; [|split; [|done]].
  - intros n a Hn. rewrite decide_False by lia. by rewrite Nat2Z.id, Hn.
  - intros i [Hi|Hi].
    + rewrite decide_True by done. eauto.
    + rewrite decide_False by lia.
      rewrite (lookup_ge_None_2 (callsOf ops) (Z.to_nat i)) by lia. eauto.
Qed.

(** ** What a call returns *)

(** The calls of [ListPlans] with the given arguments, one after the
    other: what they return, and the fake they leave. *)
Fixpoint callAll (args : list (Ctx * Info)) fake
  : list Results * CFServicePlanRepository :=
  match args with
  | [] => ([], fake)
  | (arg1, arg2) :: rest =>
      let '(result, fake1) := ListPlans arg1 arg2 fake in
      let '(results, fake2) := callAll rest fake1 in
      (result :: results, fake2)
  end.

Lemma ListPlans_keeps_the_configuration arg1 arg2 fake :
  let fake1 := (ListPlans arg1 arg2 fake).2 in
  ListPlansStub fake1 = ListPlansStub fake
  /\ listPlansReturns fake1 = listPlansReturns fake
  /\ listPlansReturnsOnCall fake1 = listPlansReturnsOnCall fake
  /\ ListPlansCallCount fake1 = ListPlansCallCount fake + 1.
Proof.
  unfold ListPlans, ListPlansCallCount.
  destruct (ListPlansStub fake) as [stub|]; [|destruct (_ ≫= _) as [ret|]]; simpl.
  all: rewrite length_app; simpl; repeat split; lia.
Qed.

Lemma callAll_without_stub args fake j a :
  ListPlansStub fake = None -> args !! j = Some a ->
  (callAll args fake).1 !! j
  = Some (default (listPlansReturns fake)
            (listPlansReturnsOnCall fake
               ≫= (.!! (ListPlansCallCount fake + Z.of_nat j)))).
Proof.
  revert fake j. induction args as [|[arg1 arg2] args IH]; intros fake j Hstub Hj; [done|].
  simpl. destruct (ListPlans arg1 arg2 fake) as [result fake1] eqn:Hcall.
  pose proof (ListPlans_keeps_the_configuration arg1 arg2 fake) as (Hs & Hr & Hroc & Hn).
  rewrite Hcall in Hs, Hr, Hroc, Hn. simpl in Hs, Hr, Hroc, Hn.
  destruct (callAll args fake1) as [results fake2] eqn:Hrest.
  destruct j as [|j]; simpl.
  - unfold ListPlans in Hcall. rewrite Hstub in Hcall. rewrite Z.add_0_r.
    unfold ListPlansCallCount.
    destruct (_ ≫= _) as [ret|]; by simplify_eq.
  - specialize (IH fake1 j). rewrite Hrest in IH. simpl in IH.
    rewrite IH by (by rewrite ?Hs). rewrite Hr, Hroc, Hn. do 4 f_equal. lia.
Qed.

(** X21. Results are handed out by the number of the call. After
    [ListPlansReturns] has set the result [result] and
    [ListPlansReturnsOnCall] has set [special] for the call with the number
    [i], whatever stub the fake had before, the calls of [ListPlans] that
    follow return [special] when their number is [i], and otherwise
    [result] or what was set for their number earlier. A stub that was
    installed before is not called. *)
Theorem the_fake_answers_by_the_number_of_the_call fake result i special args j a :
  args !! j = Some a ->
  let fake1 := ListPlansReturnsOnCall i special (ListPlansReturns result fake) in
  let number := ListPlansCallCount fake + Z.of_nat j in
  (callAll args fake1).1 !! j
  = Some (if decide (number = i) then special
          else default result (listPlansReturnsOnCall fake ≫= (.!! number))).
Proof.
  intros Hj fake1 number.
  rewrite (callAll_without_stub args fake1 j a eq_refl Hj).
  f_equal. subst fake1 number. unfold ListPlansCallCount. simpl.
  destruct (decide (_ = i)) as [->|Hne].
  - by rewrite lookup_insert_eq.
  - rewrite lookup_insert_ne by done.
    by destruct (listPlansReturnsOnCall fake).
Qed.
End FakeProperties.
End fake_properties.

(** * The theorems on a concrete cluster *)

Module Scenario.
Import Example.

(** A catalog of three services; the first has the plan of the round-trip
    example. *)
Definition catalog : Catalog :=
  {| Services := [service "svc-1" "one" [plan]; service "svc-2" "two" [];
                  service "svc-3" "three" []] |}.


(** A service whose documentation URL is a number. *)
Definition undocumented : Service.t :=
  {| Service.ID := "svc-4"; Service.Name := "four";
     Service.Description := "a service"; Service.Tags := []; Service.Requires := [];
     Service.BrokerCatalogFeatures :=
       {| bcf_PlanUpdateable := false; bcf_Bindable := true |};
     Service.Metadata := Some {[ "documentationUrl" := AnyFloat64 0 ]};
     Service.Plans := [] |}.

Definition unavailable : error :=
  StatusError StatusReasonInternalError "etcdserver: request timed out".

(** The broker as [ReconcileResource] hands it to the catalog client and
    to [reconcileCatalog]. *)
Definition observed : CFServiceBroker.t :=
  setCredentialsObservedVersion "42"
    (setObservedGeneration (CFServiceBroker.Generation cfServiceBroker) cfServiceBroker).

Definition secretKey : NamespacedName := ("cf", "my-broker-secret").
End Scenario.

(** * The properties at the example cluster *)

(** Each property is applied to a run of the example broker: its premises
    hold there by evaluation. *)

#[local] Existing Instance Example.deps.

Lemma ReconcileResource_writes_ready_condition_once_witness :
  let r := Example.reconciler Scenario.catalog in
  let w := Example.cluster Example.credentials_document [] in
  let run := ReconcileResource r Example.cfServiceBroker w in
  exists c, conditionWrites (trace run.2) = [c]
            /\ Condition.Type_ c = StatusConditionReady.
Proof.
  intros r w run.
  destruct (ReconcileResource_writes_ready_condition_once
              r Example.cfServiceBroker w run.1.1 run.1.2 run.2)
    as (fr & w1 & c & _ & Hty & _ & Hw & _).
  { vm_compute. reflexivity. }
  exists c. split; [exact Hw | exact Hty].
Defined.

Lemma invalid_credentials_never_reach_the_catalog_witness :
  let r := Example.reconciler Scenario.catalog in
  let w := Example.cluster Example.username_only_document [] in
  credentialsInvalid (Example.secret Example.username_only_document)
  /\ exists e, (ReconcileResource r Example.cfServiceBroker w).1.1
               = Returns (Result_zero, Some e)
               /\ catalogCalls
                    (trace (ReconcileResource r Example.cfServiceBroker w).2) = [].
Proof.
  intros r w.
  assert (credentialsInvalid (Example.secret Example.username_only_document)) as Hinv
    by (vm_compute; right; reflexivity).
  split; [exact Hinv|].
  destruct (invalid_credentials_never_reach_the_catalog
              r Example.cfServiceBroker w (Example.secret Example.username_only_document)
              (GetSecret Scenario.secretKey w).2)
    as (e & c & b' & _ & Hrun & _ & _ & _ & _ & _ & Hcalls).
  { vm_compute. reflexivity. }
  { exact Hinv. }
  exists e. rewrite Hrun. split; [reflexivity | exact Hcalls].
Defined.

Lemma missing_secret_is_retried_other_failures_surface_witness :
  let r := Example.reconciler Scenario.catalog in
  (ReconcileResource r Example.cfServiceBroker Example.empty).1.1
  = Returns ({| Requeue := false; RequeueAfter := 2000000000 |}, None).
Proof.
  intros r.
  destruct (missing_secret_is_retried_other_failures_surface
              r Example.cfServiceBroker Example.empty
              (NewNotFound KSecret "my-broker-secret")
              (GetSecret Scenario.secretKey Example.empty).2)
    as (c & b' & Hrun & _).
  { vm_compute. reflexivity. }
  rewrite Hrun. reflexivity.
Defined.

Lemma ready_records_generation_and_secret_version_witness :
  let r := Example.reconciler Scenario.catalog in
  let w := Example.cluster Example.credentials_document [] in
  let b' := (ReconcileResource r Example.cfServiceBroker w).1.2 in
  CFServiceBroker.ObservedGeneration (CFServiceBroker.Status b') = 3
  /\ exists credentialsSecret,
       CFServiceBroker.CredentialsObservedVersion (CFServiceBroker.Status b')
       = Secret.ResourceVersion credentialsSecret.
Proof.
  intros r w b'.
  destruct (ready_records_generation_and_secret_version
              r Example.cfServiceBroker w b' (ReconcileResource r Example.cfServiceBroker w).2)
    as (credentialsSecret & w1 & c & _ & _ & _ & Hg & Hv & _).
  { vm_compute. reflexivity. }
  split; [exact Hg|]. exists credentialsSecret. exact Hv.
Defined.

Lemma toSpecServiceOffering_panics_on_a_documentationUrl_that_is_no_string_witness :
  toSpecServiceOffering Scenario.undocumented
  = Panics "interface conversion: interface {} is float64, not string".
Proof.
  destruct (toSpecServiceOffering_panics_on_a_documentationUrl_that_is_no_string
              Scenario.undocumented {[ "documentationUrl" := AnyFloat64 0 ]} (AnyFloat64 0))
    as [Hp _].
  { reflexivity. }
  { vm_compute. reflexivity. }
  { intros s Hs. discriminate Hs. }
  exact Hp.
Defined.



Lemma upsert_failure_ends_the_walk_and_keeps_what_was_stored_witness :
  let r := Example.reconciler Scenario.catalog in
  let w0 := Example.cluster Example.credentials_document
              [None; None; None; None; None; Some Scenario.unavailable] in
  let run := ReconcileResource r Example.cfServiceBroker w0 in
  (exists e, run.1.1 = Returns (Result_zero, Some e)
             /\ Error e = ("failed to reconcile catalog: "
                           ++ "failed to reconcile service offering "
                           ++ Example.quoted "svc-2"
                           ++ " : etcdserver: request timed out")%string)
  /\ (exists x, offerings run.2 !! ("cf", "my-broker::svc-1") = Some x)
  /\ (exists y, plans run.2 !! ("cf", "my-broker::broker-plan-guid") = Some y)
  /\ offerings run.2 !! ("cf", "my-broker::svc-2") = None.
Proof.
  intros r w0 run.
  pose (svc1 := Example.service "svc-1" "one" [Example.plan]).
  pose (svc2 := Example.service "svc-2" "two" []).
  pose (svc3 := Example.service "svc-3" "three" []).
  pose (w := (GetSecret Scenario.secretKey w0).2).
  pose (w1 := (walk Scenario.observed
                 [OfferingEntry svc1; PlanEntry svc1 Example.plan]
                 (emit (EvGetCatalog "my-broker") w)).2).
  pose (en := OfferingEntry svc2).
  destruct (upsert_failure_ends_the_walk_and_keeps_what_was_stored
              r Example.cfServiceBroker w0 (Example.secret Example.credentials_document)
              w Scenario.catalog [OfferingEntry svc1; PlanEntry svc1 Example.plan]
              en [OfferingEntry svc3] w1
              (Errorf_w ("failed to reconcile service offering "
                         ++ Example.quoted "svc-2" ++ " : ")%string Scenario.unavailable)
              (reconcileEntry Scenario.observed en w1).2)
    as (_ & _ & c & b' & Hrun & _ & _ & Ho & Hp).
  { vm_compute. reflexivity. }
  { vm_compute. reflexivity. }
  { vm_compute. reflexivity. }
  { reflexivity. }
  { vm_compute. reflexivity. }
  { vm_compute. reflexivity. }
  unfold run. rewrite Hrun. cbn [fst snd]. rewrite Ho, Hp.
  split; [eexists; split; [reflexivity | vm_compute; reflexivity]|].
  split; [eexists; vm_compute; reflexivity|].
  split; [eexists; vm_compute; reflexivity|].
  vm_compute. reflexivity.
Defined.





(** * More runs of the example cluster *)

Module Cases.
Import Example.

(** A service with a documentation URL. *)
Definition documented : Service.t :=
  {| Service.ID := "svc-5"; Service.Name := "five";
     Service.Description := "a service"; Service.Tags := ["db"]; Service.Requires := [];
     Service.BrokerCatalogFeatures :=
       {| bcf_PlanUpdateable := false; bcf_Bindable := true |};
     Service.Metadata := Some {[ "documentationUrl" := AnyString "https://docs.example.org" ]};
     Service.Plans := [] |}.

(** Metadata the encoder of the example refuses. *)
Definition refused : gmap string any := {[ "weight" := AnyFloat64 0 ]}.

Definition unmarshallable : Service.t :=
  {| Service.ID := "svc-6"; Service.Name := "six";
     Service.Description := "a service"; Service.Tags := []; Service.Requires := [];
     Service.BrokerCatalogFeatures :=
       {| bcf_PlanUpdateable := false; bcf_Bindable := true |};
     Service.Metadata := Some refused;
     Service.Plans := [] |}.

Definition unmarshallable_plan : Plan.t :=
  {| Plan.ID := "plan-6"; Plan.Name := "six"; Plan.Description := "a plan";
     Plan.Free := true; Plan.Bindable := true; Plan.PlanUpdateable := false;
     Plan.Metadata := Some refused; Plan.Schemas := no_schemas |}.

Definition unsupported : error := ErrorString "json: unsupported value".

Definition unreachable : error := ErrorString "connection refused".

(** A catalog client that fails. *)
Definition failing : Reconciler :=
  {| catalogClient := {| GetCatalog := fun _ => (None, Some unreachable) |} |}.

(** An offering a user has labelled, under the name the catalog derives
    for the service svc-2, and an offering no catalog names. *)
Definition labelled : CFServiceOffering.t :=
  {| CFServiceOffering.Name := "my-broker::svc-2"; CFServiceOffering.Namespace := "cf";
     CFServiceOffering.Labels := Some {[ "team" := "payments" ]};
     CFServiceOffering.Spec := ServiceOffering.zero |}.

Definition stray : CFServiceOffering.t :=
  {| CFServiceOffering.Name := "left-over"; CFServiceOffering.Namespace := "cf";
     CFServiceOffering.Labels := None;
     CFServiceOffering.Spec := ServiceOffering.zero |}.

Definition populated : World :=
  {| secrets := ∅; brokers := ∅;
     offerings := {[ ("cf", "my-broker::svc-2") := labelled; ("cf", "left-over") := stray ]};
     plans := ∅; faults := []; clock := 1000; trace := [] |}.

Definition two_services : Catalog :=
  {| Services := [service "svc-1" "one" [plan]; service "svc-2" "two" []] |}.

Definition two_services_reversed : Catalog :=
  {| Services := [service "svc-2" "two" []; service "svc-1" "one" [plan]] |}.

(** The example cluster when the API server fails the third request. *)
Definition interrupted : World :=
  {| secrets := ∅; brokers := ∅; offerings := ∅; plans := ∅;
     faults := [None; None; Some Scenario.unavailable]; clock := 1000; trace := [] |}.
End Cases.

Lemma a_successful_run_after_a_failed_run_converges_witness :
  let b := Example.cfServiceBroker in
  let wf := (reconcileCatalog b Cases.two_services Cases.interrupted).2 in
  let w1 := (reconcileCatalog b Cases.two_services wf).2 in
  let w2 := (reconcileCatalog b Cases.two_services Example.empty).2 in
  (reconcileCatalog b Cases.two_services Cases.interrupted).1
  = Returns (Some (planFailure (Example.service "svc-1" "one" [Example.plan])
                               Example.plan Scenario.unavailable))
  /\ offerings w1 = offerings w2 /\ plans w1 = plans w2.
Proof.
  intros b wf w1 w2.
  split; [vm_compute; reflexivity|].
  apply (a_successful_run_after_a_failed_run_converges
           b Cases.two_services Cases.interrupted
           (reconcileCatalog b Cases.two_services Cases.interrupted).1
           wf w1 Example.empty w2).
  - apply surjective_pairing.
  - vm_compute. reflexivity.
  - reflexivity.
  - reflexivity.
  - vm_compute. reflexivity.
Defined.

Lemma the_order_of_the_services_does_not_matter_witness :
  let b := Example.cfServiceBroker in
  let w' := (reconcileCatalog b Cases.two_services Example.empty).2 in
  let w2' := (reconcileCatalog b Cases.two_services_reversed Example.empty).2 in
  offerings w2' = offerings w' /\ plans w2' = plans w'.
Proof.
  intros b w' w2'.
  apply (the_order_of_the_services_does_not_matter
           b Cases.two_services Cases.two_services_reversed
           Example.empty w' Example.empty w2').
  - apply perm_swap.
  - apply (bool_decide_unpack _). vm_compute. reflexivity.
  - apply (bool_decide_unpack _). vm_compute. reflexivity.
  - reflexivity.
  - reflexivity.
  - vm_compute. reflexivity.
  - vm_compute. reflexivity.
Defined.

Lemma reconcileCatalog_touches_only_what_the_catalog_names_witness :
  let w' := (reconcileCatalog Example.cfServiceBroker Cases.two_services
               Cases.populated).2 in
  offerings w' !! ("cf", "left-over") = Some Cases.stray.
Proof.
  intros w'.
  destruct (reconcileCatalog_touches_only_what_the_catalog_names
              Example.cfServiceBroker Cases.two_services Cases.populated
              (reconcileCatalog Example.cfServiceBroker Cases.two_services
                 Cases.populated).1 w')
    as (_ & _ & Ho & _).
  { apply surjective_pairing. }
  rewrite (Ho ("cf", "left-over")); [vm_compute; reflexivity|].
  intros id Hid. vm_compute in Hid.
  repeat (apply elem_of_cons in Hid as [->|Hid]; [discriminate|]).
  by apply elem_of_nil in Hid.
Defined.

Lemma reconcileCatalog_deletes_nothing_and_keeps_foreign_labels_witness :
  let w' := (reconcileCatalog Example.cfServiceBroker Cases.two_services
               Cases.populated).2 in
  exists new,
    offerings w' !! ("cf", "my-broker::svc-2") = Some new
    /\ CFServiceOffering.Labels new ≫= (.!! "team") = Some "payments".
Proof.
  intros w'.
  destruct (reconcileCatalog_deletes_nothing_and_keeps_foreign_labels
              Example.cfServiceBroker Cases.two_services Cases.populated
              (reconcileCatalog Example.cfServiceBroker Cases.two_services
                 Cases.populated).1 w')
    as (Ho & _).
  { apply surjective_pairing. }
  destruct (Ho ("cf", "my-broker::svc-2") Cases.labelled) as (new & Hnew & Hl).
  { vm_compute. reflexivity. }
  exists new. split; [exact Hnew|]. rewrite (Hl "team"); [reflexivity|].
  vm_compute. discriminate.
Defined.

Lemma reconcileCatalogService_stores_the_catalog_service_witness :
  let w' := (reconcileCatalogService Example.cfServiceBroker Cases.documented
               Example.empty).2 in
  exists serviceOffering,
    offerings w' !! ("cf", "my-broker::svc-5") = Some serviceOffering
    /\ ServiceOffering.Name (CFServiceOffering.Spec serviceOffering) = "five"
    /\ ServiceOffering.DocumentationURL (CFServiceOffering.Spec serviceOffering)
       = Some "https://docs.example.org".
Proof.
  intros w'.
  destruct (reconcileCatalogService_stores_the_catalog_service
              Example.cfServiceBroker Cases.documented Example.empty w')
    as (serviceOffering & Hsto & _ & Hname & _ & _ & _ & _ & _ & Hmd).
  { vm_compute. reflexivity. }
  exists serviceOffering. split; [exact Hsto|]. split; [exact Hname|].
  vm_compute in Hmd. destruct Hmd as [_ (url & Hu & Hdoc)].
  injection Hu as <-. exact Hdoc.
Defined.

Lemma reconcileCatalogService_fails_on_metadata_it_cannot_marshal_witness :
  exists w',
    reconcileCatalogService Example.cfServiceBroker Cases.unmarshallable Example.empty
    = (Returns (Some (Errorf_w
         ("failed to reconcile service offering " ++ Example.quoted "svc-6" ++ " : ")%string
         Cases.unsupported)), w')
    /\ offerings w' = ∅.
Proof.
  destruct (reconcileCatalogService_fails_on_metadata_it_cannot_marshal
              Example.cfServiceBroker Cases.unmarshallable Cases.refused
              Cases.unsupported Example.empty)
    as (w' & Hrun & _ & Ho & _).
  { reflexivity. }
  { vm_compute. reflexivity. }
  { intros u Hu. vm_compute in Hu. discriminate Hu. }
  { reflexivity. }
  exists w'. split; [exact Hrun | exact Ho].
Defined.

Lemma reconcileCatalogPlan_fails_on_metadata_it_cannot_marshal_witness :
  exists w',
    reconcileCatalogPlan
      (upsertedOffering Example.cfServiceBroker Cases.unmarshallable)
      Cases.unmarshallable_plan Example.empty
    = (Returns (Some (Errorf_w
         ("failed to marshal service plan " ++ Example.quoted "plan-6" ++ " metadata: ")%string
         Cases.unsupported)), w')
    /\ plans w' = ∅.
Proof.
  destruct (reconcileCatalogPlan_fails_on_metadata_it_cannot_marshal
              (upsertedOffering Example.cfServiceBroker Cases.unmarshallable)
              Cases.unmarshallable_plan Cases.unsupported Example.empty)
    as (w' & Hrun & _ & _ & Hp).
  { vm_compute. reflexivity. }
  { reflexivity. }
  exists w'. split; [exact Hrun | exact Hp].
Defined.

Lemma reconcileCatalog_errors_name_what_failed_witness :
  let out := (reconcileCatalog Example.cfServiceBroker Cases.two_services
                Cases.interrupted).1 in
  exists e cause,
    out = Returns (Some e) /\ ReasonForError e = ReasonForError cause
    /\ ((exists s, s ∈ Services Cases.two_services /\ e = offeringFailure s cause)
        \/ (exists s p, s ∈ Services Cases.two_services /\ p ∈ Service.Plans s
                        /\ e = planFailure s p cause)).
Proof.
  intros out.
  pose (e := planFailure (Example.service "svc-1" "one" [Example.plan]) Example.plan
               Scenario.unavailable).
  destruct (reconcileCatalog_errors_name_what_failed
              Example.cfServiceBroker Cases.two_services Cases.interrupted e
              (reconcileCatalog Example.cfServiceBroker Cases.two_services
                 Cases.interrupted).2)
    as (cause & Hreason & Hnamed).
  { vm_compute. reflexivity. }
  exists e, cause. split; [vm_compute; reflexivity|]. split; [exact Hreason | exact Hnamed].
Defined.

Lemma reconcileCatalog_sends_at_most_two_requests_per_entry_witness :
  let w' := (reconcileCatalog Example.cfServiceBroker Scenario.catalog Example.empty).2 in
  exists delta, trace w' = delta /\ (4 <= length delta <= 8)%nat.
Proof.
  intros w'.
  destruct (reconcileCatalog_sends_at_most_two_requests_per_entry
              Example.cfServiceBroker Scenario.catalog Example.empty (Returns None) w')
    as (delta & Ht & _ & Hle & Hge).
  { vm_compute. reflexivity. }
  exists delta. split; [exact Ht|]. split; [exact (Hge eq_refl) | exact Hle].
Defined.

Lemma ReconcileResource_returns_the_error_of_the_catalog_client_witness :
  let w := Example.cluster Example.credentials_document [] in
  let run := ReconcileResource Cases.failing Example.cfServiceBroker w in
  run.1.1 = Returns (Result_zero, Some Cases.unreachable)
  /\ CFServiceBroker.CredentialsObservedVersion (CFServiceBroker.Status run.1.2) = "42".
Proof.
  intros w run.
  destruct (ReconcileResource_returns_the_error_of_the_catalog_client
              Cases.failing Example.cfServiceBroker w
              (Example.secret Example.credentials_document)
              (GetSecret Scenario.secretKey w).2 None Cases.unreachable)
    as (c & b' & Hrun & _ & _ & _ & _ & Hv & _).
  { vm_compute. reflexivity. }
  { vm_compute. reflexivity. }
  { reflexivity. }
  unfold run. rewrite Hrun. split; [reflexivity | exact Hv].
Defined.

Lemma ReconcileResource_records_the_generation_on_every_path_witness :
  let run := ReconcileResource (Example.reconciler Scenario.catalog)
               Example.cfServiceBroker Example.empty in
  CFServiceBroker.ObservedGeneration (CFServiceBroker.Status run.1.2) = 3
  /\ CFServiceBroker.CredentialsObservedVersion (CFServiceBroker.Status run.1.2)
     = EmptyString.
Proof.
  intros run.
  destruct (ReconcileResource_records_the_generation_on_every_path
              (Example.reconciler Scenario.catalog) Example.cfServiceBroker Example.empty
              run.1.1 run.1.2 run.2)
    as (_ & _ & _ & _ & Hg & Hv).
  { unfold run. by rewrite <- !surjective_pairing. }
  split; [exact Hg | exact Hv].
Defined.

Lemma ReconcileResource_calls_the_catalog_client_at_most_once_witness :
  let r := Example.reconciler Scenario.catalog in
  let w := Example.cluster Example.credentials_document [] in
  catalogCalls (trace (ReconcileResource r Example.cfServiceBroker w).2) = ["my-broker"].
Proof.
  intros r w.
  rewrite (ReconcileResource_calls_the_catalog_client_at_most_once
             r Example.cfServiceBroker w
             (ReconcileResource r Example.cfServiceBroker w).1.1
             (ReconcileResource r Example.cfServiceBroker w).1.2
             (ReconcileResource r Example.cfServiceBroker w).2).
  - vm_compute. reflexivity.
  - by rewrite <- !surjective_pairing.
Defined.

Lemma ReconcileResource_reaches_Ready_witness :
  let r := Example.reconciler Cases.two_services in
  let w := Example.cluster Example.credentials_document [] in
  exists b' w',
    ReconcileResource r Example.cfServiceBroker w = (Returns (Result_zero, None), b', w')
    /\ is_Some (offerings w' !! ("cf", "my-broker::svc-2")).
Proof.
  intros r w.
  destruct (ReconcileResource_reaches_Ready r Example.cfServiceBroker w
              (Example.secret Example.credentials_document) Cases.two_services)
    as (b' & w' & Hrun & _ & _ & _ & _ & Ho & _).
  { reflexivity. }
  { intros key x Hx. vm_compute in Hx. discriminate Hx. }
  { intros key x Hx. vm_compute in Hx. discriminate Hx. }
  { vm_compute. reflexivity. }
  { vm_compute. reflexivity. }
  { reflexivity. }
  { repeat constructor; vm_compute; eexists; reflexivity. }
  exists b', w'. split; [exact Hrun|].
  apply (Ho (Example.service "svc-2" "two" [])). right. left.
Defined.

Lemma validateCredentials_accepts_exactly_an_object_with_both_keys_witness :
  validateCredentials (Example.secret Example.credentials_document) = None.
Proof.
  apply (validateCredentials_accepts_exactly_an_object_with_both_keys
           (Example.secret Example.credentials_document)).
  exists {[ "username" := AnyString "admin"; "password" := AnyString "secret" ]}.
  split; [vm_compute; reflexivity|].
  split; [exists (AnyString "admin") | exists (AnyString "secret")];
    vm_compute; reflexivity.
Defined.

Lemma validateCredentials_names_the_first_missing_key_witness :
  validateCredentials (Example.secret Example.username_only_document)
  = Some (ErrorString ("broker credentials secret " ++ Example.quoted "my-broker-secret"
                       ++ " does not specify " ++ Example.quoted "password")%string).
Proof.
  rewrite (validateCredentials_names_the_first_missing_key
             (Example.secret Example.username_only_document)
             {[ "username" := AnyString "admin" ]} "password").
  - reflexivity.
  - left. vm_compute. reflexivity.
  - right. split; [reflexivity|].
    split; [exists (AnyString "admin")|]; vm_compute; reflexivity.
Defined.

Lemma secretToServiceBroker_reads_once_and_enqueues_no_broker_twice_witness :
  let o := Example.secret Example.credentials_document in
  let w := Example.cluster Example.credentials_document [] in
  NoDup (secretToServiceBroker o w).1
  /\ brokers (secretToServiceBroker o w).2 = brokers w.
Proof.
  intros o w.
  destruct (secretToServiceBroker_reads_once_and_enqueues_no_broker_twice o w)
    as (Hnd & _ & _ & Hb & _).
  { intros key b Hb. unfold w, Example.cluster in Hb. cbn [brokers] in Hb.
    apply lookup_singleton_Some in Hb as [<- <-]. reflexivity. }
  split; [exact Hnd | exact Hb].
Defined.

(** ** The repository and its fake, run *)

Module ExampleRepository.
(** An instance of what the repository takes from outside: the user is
    known by name, an error of the cluster is passed on under the resource
    type, every plan was created at the same instant and has no
    annotations. *)
#[export] Instance repositoryDeps : RepositoryDeps := {|
  Info := string;
  FromK8sError := fun err resourceType =>
    WrapError (resourceType ++ ": " ++ Error err) err;
  CreationTimestamp := fun _ => 1700000000;
  Annotations := fun _ => None
|}.

Definition forbidden : error :=
  StatusError apierrors.StatusReasonForbidden "no client for this user".

(** The repository of the root namespace "cf". *)
Definition repo (buildError : option error) : ServicePlanRepo :=
  NewServicePlanRepo {| BuildClient := fun _ => buildError |} "cf".

(** The example cluster after the plan of the round-trip example was
    reconciled. *)
Definition reconciled : World :=
  (reconcileCatalogPlan
     (upsertedOffering Example.cfServiceBroker
        (Example.service "svc-1" "one" [Example.plan]))
     Example.plan Example.empty).2.
End ExampleRepository.

#[local] Existing Instance ExampleRepository.repositoryDeps.

Lemma ListPlans_returns_no_plans_with_an_error_witness :
  let run := ListPlans (ExampleRepository.repo (Some ExampleRepository.forbidden))
               "alice" ExampleRepository.reconciled in
  run.1.1 = [] /\ run.2 = ExampleRepository.reconciled.
Proof.
  intros run.
  destruct (ListPlans_returns_no_plans_with_an_error
              (ExampleRepository.repo (Some ExampleRepository.forbidden)) "alice"
              ExampleRepository.reconciled run.1.1
              (Errorf_w "failed to build user client: " ExampleRepository.forbidden)
              run.2)
    as (Hnil & [(cause & _ & _ & Hw)|(cause & Hb & _)]).
  { reflexivity. }
  - split; [exact Hnil | exact Hw].
  - discriminate Hb.
Defined.



Lemma the_fake_keeps_the_history_of_its_calls_witness :
  let ops := [fake_properties.CallListPlans tt "alice";
              fake_properties.CallListPlansReturns ([], Some ExampleRepository.forbidden);
              fake_properties.CallListPlans tt "bob"] in
  let f := fake_properties.run ops fake.zero in
  fake.ListPlansCallCount f = 2
  /\ fake.ListPlansArgsForCall 1 f = Returns (tt, "bob")
  /\ exists v, fake.ListPlansArgsForCall 2 f = Panics v.
Proof.
  intros ops f.
  destruct (fake_properties.the_fake_keeps_the_history_of_its_calls ops)
    as (Hcount & Hargs & Hpanic & _).
  split; [exact Hcount|]. split.
  - exact (Hargs 1%nat (tt, "bob") eq_refl).
  - apply Hpanic. right. vm_compute. discriminate.
Defined.

Lemma the_fake_answers_by_the_number_of_the_call_witness :
  let special : fake.Results := ([], Some ExampleRepository.forbidden) in
  let f :=
    fake.ListPlansReturnsOnCall 1 special
      (fake.ListPlansReturns ([], None)
         (fake.ListPlansCalls (Some (fun (_ : unit) (_ : string) => special)) fake.zero)) in
  (fake_properties.callAll [(tt, "alice"); (tt, "bob"); (tt, "carol")] f).1
  !! 1%nat = Some special
  /\ (fake_properties.callAll [(tt, "alice"); (tt, "bob"); (tt, "carol")] f).1
     !! 2%nat = Some ([], None).
Proof.
  intros special f. split.
  - exact (fake_properties.the_fake_answers_by_the_number_of_the_call
             (fake.ListPlansCalls (Some (fun _ _ => special)) fake.zero)
             ([], None) 1 special [(tt, "alice"); (tt, "bob"); (tt, "carol")]
             1%nat (tt, "bob") eq_refl).
  - exact (fake_properties.the_fake_answers_by_the_number_of_the_call
             (fake.ListPlansCalls (Some (fun _ _ => special)) fake.zero)
             ([], None) 1 special [(tt, "alice"); (tt, "bob"); (tt, "carol")]
             2%nat (tt, "carol") eq_refl).
Defined.
